(** * RFID phase feature extractor: the extraction-and-captioning engine

    A shallow embedding of the numeric core of the feature extractor
    (signal cleaning, statistical and spectral features, sliding-window
    captions, multi-channel merge) and the properties checked against it.

    JavaScript numbers are IEEE 754 binary64 values: they are modelled by
    Rocq's primitive [float], whose operations are the same binary64
    operations (round to nearest even, one NaN).  Array lengths and loop
    counters are [nat]; the few 32-bit bit operations are written out on [Z]. *)

From Stdlib Require Uint63 String.
From Stdlib Require Import Floats ZArith List Bool Lia PeanoNat Sorted Permutation.
Import ListNotations.
Import String.StringSyntax.
Delimit Scope string_scope with string.

#[local] Set Warnings "-inexact-float".
#[local] Open Scope float_scope.

(** ** JavaScript number layer *)

Module JS.

(** A count or index used as a number ([x.length], a loop counter). *)
Definition num (n : nat) : float := PrimFloat.of_uint63 (Uint63.of_Z (Z.of_nat n)).

(** [ToNumber] of a possibly [undefined] value: [undefined] becomes NaN. *)
Definition toNumber (v : option float) : float :=
  match v with Some x => x | None => nan end.

(** [a[i]] read in an arithmetic context; out of range is [undefined],
    which arithmetic turns into NaN. *)
Definition get (a : list float) (i : nat) : float := toNumber (nth_error a i).

(** [a[i] = v] for an index inside the array. *)
Fixpoint update (i : nat) (v : float) (a : list float) : list float :=
  match a, i with
  | [], _ => []
  | _ :: a', O => v :: a'
  | x :: a', S i' => x :: update i' v a'
  end.

(** [v || d] on numbers: 0, -0 and NaN are falsy. *)
Definition orElse (v d : float) : float :=
  if is_nan v || is_zero v then d else v.

(** [Math.min(a, b)]: NaN if either is NaN, and -0 is below +0. *)
Definition Math_min (a b : float) : float :=
  if is_nan a || is_nan b then nan
  else if a <? b then a
  else if b <? a then b
  else if get_sign a then a else b.

(** [Math.max(a, b)]: NaN if either is NaN, and +0 is above -0. *)
Definition Math_max (a b : float) : float :=
  if is_nan a || is_nan b then nan
  else if a <? b then b
  else if b <? a then a
  else if get_sign a then b else a.

(** [arr.reduce((s, v) => s + v, 0)]. *)
Definition sum (a : list float) : float := fold_left add a 0.

(** [ToInt32], the coercion applied by [&] and [<<]. *)
Definition toInt32 (z : Z) : Z :=
  let m := (z mod 2 ^ 32)%Z in
  if (m <? 2 ^ 31)%Z then m else (m - 2 ^ 32)%Z.

(** The elements of an array with their indices, as a callback
    [(v, i) => ...] receives them. *)
Definition indexed (a : list float) : list (nat * float) :=
  combine (seq 0 (length a)) a.

End JS.

Import JS.

(** ** Numeric helpers *)

Definition EPS : float := 1e-12.

Definition isFiniteNum (v : float) : bool := is_finite v && negb (is_nan v).

(** [Array.prototype.sort] with the comparator [(x, y) => x - y]: the
    sort is stable, so on a consistent comparator its result is that of a
    stable insertion sort. *)
Fixpoint insertNum (x : float) (a : list float) : list float :=
  match a with
  | [] => [x]
  | y :: a' => if y - x <? 0 then y :: insertNum x a' else x :: y :: a'
  end.

Definition sortNum (a : list float) : list float := fold_right insertNum [] a.

Definition median (arr : list float) : float :=
  let a := sortNum (filter isFiniteNum arr) in
  if (length a =? 0)%nat then nan
  else
    let m := (length a / 2)%nat in
    if Nat.odd (length a) then get a m
    else (get a (m - 1) + get a m) / 2.

Definition medianAbsDeviation (arr : list float) : float :=
  let m := median arr in
  let devs := map (fun v => abs (v - m)) arr in
  median devs.

(** The inner loop of [autocorrDecayHalf]: the raw autocovariance sum at
    one lag. *)
Definition lagSum (xc : list float) (n lag : nat) : float :=
  fold_left (fun s i => s + get xc i * get xc (i + lag)) (seq 0 (n - lag)) 0.

(** [for (let i = 0; i < n; i++) ac[i] /= ac[0];] run in place, reading
    the current [ac[0]] at every step. *)
Definition normalizeInPlace (n : nat) (ac : list float) : list float :=
  fold_left (fun ac i => update i (get ac i / get ac 0) ac) (seq 0 n) ac.

Definition autocorrDecayHalf (x : list float) : nat :=
  let n := length x in
  if (n <? 3)%nat then n
  else
    let mean := sum x / num n in
    let xc := map (fun v => v - mean) x in
    let ac := map (lagSum xc n) (seq 0 n) in
    if abs (get ac 0) <? EPS then 0%nat
    else
      let ac := normalizeInPlace n ac in
      match find (fun i => get ac i <? 0.5) (seq 1 (n - 1)) with
      | Some i => i
      | None => n
      end.

Definition isPowerOfTwo (n : Z) : bool :=
  (1 <? n)%Z && (Z.land (toInt32 n) (toInt32 (n - 1)) =? 0)%Z.

(** [while (p < Math.max(2, n)) p <<= 1;].  [p] runs through 1, 2, ...,
    2^30, -2^31, 0, 0, ...: the loop exits within 32 steps or never, and
    [None] stands for the run that never exits. *)
Fixpoint nextPow2_loop (steps : nat) (p n : Z) : option Z :=
  match steps with
  | O => None
  | S steps' =>
      if (p <? Z.max 2 n)%Z then nextPow2_loop steps' (toInt32 (Z.shiftl p 1)) n
      else Some p
  end.

Definition nextPow2 (n : Z) : option Z := nextPow2_loop 40 1%Z n.

(** ** Linear fit *)

Module Fit.
Record t := mk { m : float; r2 : float }.
End Fit.

Definition linearFitSlope (t y : list float) : Fit.t :=
  let n := length t in
  if (n <? 2)%nat then Fit.mk nan nan
  else
    let sumT := sum t in
    let sumY := sum y in
    let sumTT := fold_left (fun s v => s + v * v) t 0 in
    let sumTY := fold_left (fun s iv => s + snd iv * get y (fst iv)) (indexed t) 0 in
    let denom := num n * sumTT - sumT * sumT + EPS in
    let m := (num n * sumTY - sumT * sumY) / denom in
    let b := (sumY - m * sumT) / num n in
    let yhat := map (fun v => m * v + b) t in
    let meanY := sumY / num n in
    let ss :=
      fold_left
        (fun acc i =>
           let e := get y i - get yhat i in
           let d := get y i - meanY in
           (fst acc + e * e, snd acc + d * d))
        (seq 0 n) (0, 0) in
    let r2 := 1 - fst ss / (snd ss + EPS) in
    Fit.mk m r2.

Definition medianDelta (time : list float) : float :=
  let dts :=
    fold_left
      (fun dts i =>
         let dt := get time i - get time (i - 1) in
         if isFiniteNum dt && (0 <? dt) then dts ++ [dt] else dts)
      (seq 1 (length time - 1)) [] in
  median dts.

(** ** Labels, captions and rows *)

Inductive Label := sharp_rise | sharp_drop | increasing | decreasing | constant.

Module Caption.
Record t := mk { window_index : nat; label : Label }.
End Caption.

(** One scanned window of [slidingWindowCaptions]: its position [k], its
    bounds and the sample indices [idx] it selected. *)
Module Window.
Record t := mk { k : nat; start : float; end_ : float; idx : list nat }.
End Window.

(** A per-channel caption row of [makeRows].  [start_time] is [time[si]],
    which is [undefined] ([None]) when the index is outside the array. *)
Module ChannelRow.
Record t := mk {
  window_index : nat;
  start_time : option float;
  end_time : float;
  label : Label
}.
End ChannelRow.

Inductive Channel := tag1_residual | tag2_residual | tag1_detrend | tag2_detrend.

(** A row of the merged structural table; a label that no channel set is
    absent ([None]). *)
Module StructuralRow.
Record t := mk {
  window_index : nat;
  start_time : option float;
  end_time : float;
  tag1_residual_label : option Label;
  tag2_residual_label : option Label;
  tag1_detrend_label : option Label;
  tag2_detrend_label : option Label
}.
End StructuralRow.

Module Series.
Record t := mk {
  tag1_residual_rad : list float;
  tag2_residual_rad : list float;
  tag1_detrend_rad : list float;
  tag2_detrend_rad : list float
}.
End Series.

Definition labelFromSlope (slope sd seconds : float) : Label :=
  let norm := abs slope / (sd / orElse seconds 1 + EPS) in
  if 1.5 <=? norm then (if 0 <? slope then sharp_rise else sharp_drop)
  else if 0.4 <=? norm then (if 0 <? slope then increasing else decreasing)
  else constant.

(** The membership test of the inner loop of [slidingWindowCaptions]:
    [t >= start && ((end < T1) ? t < end : t <= end)]. *)
Definition inWin (T1 start end_ t : float) : bool :=
  (start <=? t) && (if end_ <? T1 then t <? end_ else t <=? end_).

(** The inner loop: the indices pushed to [idx], in increasing order. *)
Definition windowIdx (time : list float) (T1 start end_ : float) : list nat :=
  fold_left
    (fun idx i => if inWin T1 start end_ (get time i) then idx ++ [i] else idx)
    (seq 0 (length time)) [].

(** The scan of [slidingWindowCaptions] alone: every window the outer loop
    visits, with the indices it selected, whether or not a caption is
    emitted for it.  [None] when the loop has not exited after [fuel]
    iterations. *)
Fixpoint scanWindows (fuel : nat) (time : list float) (T1 winSec hopSec : float)
    (start : float) (k : nat) : option (list Window.t) :=
  match fuel with
  | O => None
  | S fuel' =>
      if start <=? T1 - 1e-9 then
        let end_ := start + winSec in
        let idx := windowIdx time T1 start end_ in
        match scanWindows fuel' time T1 winSec hopSec (start + hopSec) (S k) with
        | Some ws => Some (Window.mk k start end_ idx :: ws)
        | None => None
        end
      else Some []
  end.

(** ** Signal cleaning (the per-file body of [parseAll]) *)

Module Columns.
Record t := mk {
  time : list float;
  tag1_residual_rad : list float;
  tag2_residual_rad : list float;
  tag1_detrend_rad : list float;
  tag2_detrend_rad : list float
}.
Definition empty : t := mk [] [] [] [] [].
End Columns.

Section Cleaning.

(** A cell of a parsed row is whatever the CSV parser produced (a number,
    a string, [null], ...); the program only looks at it through
    [Number(...)]. *)
Variable cell : Type.
Variable Number : cell -> float.

Record RawRow := mkRawRow {
  r_time_s : cell;
  r_tag1_residual_rad : cell;
  r_tag2_residual_rad : cell;
  r_tag1_detrend_rad : cell;
  r_tag2_detrend_rad : cell
}.

(** The test of the collecting loop:
    [[t, a1, a2, d1, d2].every(isFiniteNum)]. *)
Definition rowKept (r : RawRow) : bool :=
  forallb isFiniteNum
    [Number (r_time_s r); Number (r_tag1_residual_rad r);
     Number (r_tag2_residual_rad r); Number (r_tag1_detrend_rad r);
     Number (r_tag2_detrend_rad r)].

(** One iteration of [for (const r of raw)]. *)
Definition pushRow (c : Columns.t) (r : RawRow) : Columns.t :=
  let t := Number (r_time_s r) in
  let a1 := Number (r_tag1_residual_rad r) in
  let a2 := Number (r_tag2_residual_rad r) in
  let d1 := Number (r_tag1_detrend_rad r) in
  let d2 := Number (r_tag2_detrend_rad r) in
  if forallb isFiniteNum [t; a1; a2; d1; d2] then
    Columns.mk (Columns.time c ++ [t])
      (Columns.tag1_residual_rad c ++ [a1]) (Columns.tag2_residual_rad c ++ [a2])
      (Columns.tag1_detrend_rad c ++ [d1]) (Columns.tag2_detrend_rad c ++ [d2])
  else c.

Definition collectRows (raw : list RawRow) : Columns.t :=
  fold_left pushRow raw Columns.empty.

(** [for (let i = 1; i < time.length; i++)
       if (!(time[i] > time[i - 1])) time[i] = time[i - 1] + 1e-6;]
    run in place. *)
Definition enforceIncreasing (time : list float) : list float :=
  fold_left
    (fun time i =>
       if negb (get time (i - 1) <? get time i)
       then update i (get time (i - 1) + 1e-6) time
       else time)
    (seq 1 (length time - 1)) time.

(** The result for one file whose header has every required column:
    [None] when the file is skipped for having fewer than 8 valid rows. *)
Definition cleanFile (raw : list RawRow) : option Columns.t :=
  let c := collectRows raw in
  if (length (Columns.time c) <? 8)%nat then None
  else
    Some (Columns.mk (enforceIncreasing (Columns.time c))
            (Columns.tag1_residual_rad c) (Columns.tag2_residual_rad c)
            (Columns.tag1_detrend_rad c) (Columns.tag2_detrend_rad c)).

End Cleaning.

Arguments mkRawRow {cell}.
Arguments r_time_s {cell}.
Arguments r_tag1_residual_rad {cell}.
Arguments r_tag2_residual_rad {cell}.
Arguments r_tag1_detrend_rad {cell}.
Arguments r_tag2_detrend_rad {cell}.
Arguments rowKept {cell}.
Arguments pushRow {cell}.
Arguments collectRows {cell}.
Arguments cleanFile {cell}.

(** ** Spectral features *)

Module Spectrum.
Record t := mk { freqs : list float; power : list float }.
End Spectrum.

Module Spectral.
Record t := mk {
  spectral_centroid : float;
  ent : float;
  f1 : float;
  f1_power : float;
  band_0_2 : float;
  band_2_5 : float;
  band_5_10 : float;
  band_10_20 : float
}.
Definition allNaN : t := mk nan nan nan nan nan nan nan nan.
End Spectral.

Module FeatureVector.
Record t := mk {
  fs : float;
  n : float;
  mean : float;
  std : float;
  mad : float;
  rng : float;
  skew : float;
  kurt : float;
  cv : float;
  slope : float;
  slope_r2 : float;
  ac_half : float;
  spectral_centroid : float;
  spectral_entropy : float;
  dom_freq : float;
  dom_power : float;
  band_0_2 : float;
  band_2_5 : float;
  band_5_10 : float;
  band_10_20 : float;
  low_mid_ratio : float
}.
(** The fields in the order of [FEATURE_COLUMNS]. *)
Definition fields (v : t) : list float :=
  [fs v; n v; mean v; std v; mad v; rng v; skew v; kurt v; cv v;
   slope v; slope_r2 v; ac_half v;
   spectral_centroid v; spectral_entropy v; dom_freq v; dom_power v;
   band_0_2 v; band_2_5 v; band_5_10 v; band_10_20 v; low_mid_ratio v].
End FeatureVector.

Section Engine.

(** What the engine takes from its platform: [Math.pow] (the [**]
    operator) and [Math.log2], whose results the language leaves to the
    implementation, and the FFT library, as the one call
    [realTransform] followed by [completeSpectrum] on a transform of size
    [N], giving the [2 * N] interleaved real and imaginary parts. *)
Variable Math_pow : float -> float -> float.
Variable Math_log2 : float -> float.
Variable fftSpectrum : nat -> list float -> list float.

Definition spectralEntropy (power : list float) : float :=
  let sum := sum power in
  if negb (0 <? sum) then 0
  else
    fold_left
      (fun H v => let p := v / sum in H + (- p) * Math_log2 (p + EPS))
      power 0.

Definition rfftPower (xIn : list float) (fs : float) : option Spectrum.t :=
  if negb (isFiniteNum fs) || (fs <=? 0) then Some (Spectrum.mk [] [])
  else
    let x := filter isFiniteNum xIn in
    let n := length x in
    if (n <? 2)%nat then Some (Spectrum.mk [] [])
    else
      let xm := sum x / num n in
      let z := map (fun v => v - xm) x in
      match (if isPowerOfTwo (Z.of_nat n) then Some (Z.of_nat n)
             else nextPow2 (Z.of_nat n)) with
      | None => None
      | Some N =>
          let N := Z.to_nat N in
          let input := firstn (Nat.min n N) z ++ repeat 0 (N - Nat.min n N) in
          let out := fftSpectrum N input in
          let half := (N / 2)%nat in
          let power :=
            map (fun k =>
                   let re := get out (2 * k) in
                   let im := get out (2 * k + 1) in
                   (re * re + im * im) / num N)
                (seq 0 (half + 1)) in
          let freqs := map (fun k => (num k * fs) / num N) (seq 0 (half + 1)) in
          Some (Spectrum.mk freqs power)
      end.

Definition spectralFeatures (x : list float) (fs : float) : option Spectral.t :=
  let n := length x in
  if negb (isFiniteNum fs) || (n <? 8)%nat then Some Spectral.allNaN
  else
    match rfftPower x fs with
    | None => None
    | Some sp =>
        let freqs := Spectrum.freqs sp in
        let power := Spectrum.power sp in
        if (length freqs =? 0)%nat then Some Spectral.allNaN
        else
          let sumP := sum power + EPS in
          let sc :=
            fold_left (fun s jf => s + snd jf * get power (fst jf)) (indexed freqs) 0
            / sumP in
          let ent := spectralEntropy power in
          let idx :=
            fold_left (fun idx i => if get power idx <? get power i then i else idx)
              (seq 1 (length power - 1)) 0%nat in
          let f1 := get freqs idx in
          let f1p := get power idx in
          let band a b :=
            fold_left
              (fun s i =>
                 if (a <=? get freqs i) && (get freqs i <? b)
                 then s + get power i else s)
              (seq 0 (length freqs)) 0 in
          Some (Spectral.mk sc ent f1 f1p
                  (band 0 2) (band 2 5) (band 5 10) (band 10 20))
    end.

(** ** Statistical features *)

Definition computeSeriesFeatures (time yIn : list float) : option FeatureVector.t :=
  let timeClean := filter isFiniteNum time in
  let y := filter isFiniteNum yIn in
  let n := Nat.min (length timeClean) (length y) in
  if (n <? 4)%nat then
    Some (FeatureVector.mk nan (num n)
            nan nan nan nan nan nan nan
            nan nan nan
            nan nan
            nan nan
            nan nan nan nan
            nan)
  else
    let yy := firstn n y in
    let tt := firstn n timeClean in
    let mean := sum yy / num n in
    let std := sqrt (fold_left (fun s v => s + Math_pow (v - mean) 2) yy 0 / num n) in
    let mad := medianAbsDeviation yy in
    let rng := fold_left Math_max yy neg_infinity - fold_left Math_min yy infinity in
    let x0 :=
      if 0 <? std then map (fun v => (v - mean) / (std + EPS)) yy
      else map (fun _ => 0) yy in
    let skew := fold_left (fun s v => s + Math_pow v 3) x0 0 / num n in
    let kurt := fold_left (fun s v => s + Math_pow v 4) x0 0 / num n - 3 in
    let cv := std / (abs mean + EPS) in
    let fit := linearFitSlope tt yy in
    let ac_half := autocorrDecayHalf yy in
    let dtMed := medianDelta tt in
    let fs := if isFiniteNum dtMed && (0 <? dtMed) then 1 / dtMed else nan in
    match spectralFeatures yy fs with
    | None => None
    | Some spec =>
        let low_mid :=
          Spectral.band_0_2 spec
          / (orElse (Spectral.band_2_5 spec) 0 + orElse (Spectral.band_5_10 spec) 0 + EPS) in
        Some (FeatureVector.mk fs (num n)
                mean std mad rng skew kurt cv
                (Fit.m fit) (Fit.r2 fit) (num ac_half)
                (Spectral.spectral_centroid spec) (Spectral.ent spec)
                (Spectral.f1 spec) (Spectral.f1_power spec)
                (Spectral.band_0_2 spec) (Spectral.band_2_5 spec)
                (Spectral.band_5_10 spec) (Spectral.band_10_20 spec)
                low_mid)
    end.

(** ** Sliding-window captions *)

(** The body of the outer loop after [idx] is known: the caption pushed
    for the window, or nothing ([continue]) for fewer than 2 samples. *)
Definition captionOf (time y : list float) (winSec : float) (k : nat)
    (idx : list nat) : option Caption.t :=
  if (length idx <? 2)%nat then None
  else
    let tk := map (fun i => get time i) idx in
    let yk := map (fun i => get y i) idx in
    let fit := linearFitSlope tk yk in
    let mu := sum yk / num (length yk) in
    let sd :=
      sqrt (fold_left (fun s v => s + Math_pow (v - mu) 2) yk 0 / num (length yk)) in
    Some (Caption.mk k (labelFromSlope (Fit.m fit) sd winSec)).

(** [for (let start = T0; start <= T1 - 1e-9; start += hopSec, k++)]:
    [None] when the loop has not exited after [fuel] iterations. *)
Fixpoint captionLoop (fuel : nat) (time y : list float) (T1 winSec hopSec : float)
    (start : float) (k : nat) (out : list Caption.t) : option (list Caption.t) :=
  match fuel with
  | O => None
  | S fuel' =>
      if start <=? T1 - 1e-9 then
        let end_ := start + winSec in
        let idx := windowIdx time T1 start end_ in
        match captionOf time y winSec k idx with
        | None => captionLoop fuel' time y T1 winSec hopSec (start + hopSec) (S k) out
        | Some c =>
            captionLoop fuel' time y T1 winSec hopSec (start + hopSec) (S k) (out ++ [c])
        end
      else Some out
  end.

(** [time] is [None] for an absent ([null] or [undefined]) argument. *)
Definition slidingWindowCaptions (fuel : nat) (time : option (list float))
    (y : list float) (winSec hopSec : float) : option (list Caption.t) :=
  match time with
  | None => Some []
  | Some time =>
      if (length time <? 2)%nat then Some []
      else
        let T0 := get time 0 in
        let T1 := get time (length time - 1) in
        captionLoop fuel time y T1 winSec hopSec T0 0 []
  end.

End Engine.

(** ** Multi-channel window merge *)

(** [time.findIndex(p)], [None] standing for -1. *)
Fixpoint findIndexFrom (p : float -> bool) (a : list float) (i : nat) : option nat :=
  match a with
  | [] => None
  | t :: a' => if p t then Some i else findIndexFrom p a' (S i)
  end.

Definition findIndex (p : float -> bool) (a : list float) : option nat :=
  findIndexFrom p a 0.

(** [for (let i = si; i < time.length && time[i] <= nominalEnd; i++) ei = i;]
    over the samples [rest] from position [i] on. *)
Fixpoint scanEnd (rest : list float) (i : nat) (nominalEnd : float) (ei : nat) : nat :=
  match rest with
  | [] => ei
  | t :: rest' => if t <=? nominalEnd then scanEnd rest' (S i) nominalEnd i else ei
  end.

(** The callback of [raw.map] in [makeRows]. *)
Definition resolveRow (time : list float) (T0 WIN HOP : float) (r : Caption.t)
    : ChannelRow.t :=
  let nominalStart := T0 + num (Caption.window_index r) * HOP in
  let nominalEnd := nominalStart + WIN in
  let si := match findIndex (fun t => nominalStart <=? t) time with
            | Some i => i
            | None => 0%nat
            end in
  let ei := scanEnd (skipn si time) si nominalEnd si in
  ChannelRow.mk (Caption.window_index r)
    (nth_error time si)
    (match nth_error time ei with Some v => v | None => nominalEnd end)
    (Caption.label r).

Definition setLabel (key : Channel) (l : Label) (row : StructuralRow.t)
    : StructuralRow.t :=
  let '(StructuralRow.mk k s e a b c d) := row in
  match key with
  | tag1_residual => StructuralRow.mk k s e (Some l) b c d
  | tag2_residual => StructuralRow.mk k s e a (Some l) c d
  | tag1_detrend => StructuralRow.mk k s e a b (Some l) d
  | tag2_detrend => StructuralRow.mk k s e a b c (Some l)
  end.

(** The row a channel row seeds when its index is new to the map. *)
Definition seedRow (r : ChannelRow.t) : StructuralRow.t :=
  StructuralRow.mk (ChannelRow.window_index r)
    (ChannelRow.start_time r) (ChannelRow.end_time r) None None None None.

(** The three assignments made to the map's row for a channel row. *)
Definition widen (key : Channel) (r : ChannelRow.t) (row : StructuralRow.t)
    : StructuralRow.t :=
  let '(StructuralRow.mk k s e a b c d) := row in
  setLabel key (ChannelRow.label r)
    (StructuralRow.mk k
       (Some (Math_min (toNumber s) (toNumber (ChannelRow.start_time r))))
       (Math_max e (ChannelRow.end_time r))
       a b c d).

(** One iteration of [merge] on the map [byIdx], kept as the list of its
    rows in insertion order; a row is found by its [window_index]. *)
Fixpoint upsert (key : Channel) (r : ChannelRow.t) (byIdx : list StructuralRow.t)
    : list StructuralRow.t :=
  match byIdx with
  | [] => [widen key r (seedRow r)]
  | row :: rest =>
      if (StructuralRow.window_index row =? ChannelRow.window_index r)%nat
      then widen key r row :: rest
      else row :: upsert key r rest
  end.

Definition merge (rows : list ChannelRow.t) (key : Channel)
    (byIdx : list StructuralRow.t) : list StructuralRow.t :=
  fold_left (fun m r => upsert key r m) rows byIdx.

(** [.sort((a, b) => a.window_index - b.window_index)], a stable sort. *)
Fixpoint insertRow (r : StructuralRow.t) (rows : list StructuralRow.t)
    : list StructuralRow.t :=
  match rows with
  | [] => [r]
  | x :: rest =>
      if (StructuralRow.window_index x <? StructuralRow.window_index r)%nat
      then x :: insertRow r rest
      else r :: x :: rest
  end.

Definition sortRows (rows : list StructuralRow.t) : list StructuralRow.t :=
  fold_right insertRow [] rows.

Definition mergeAll (t1r t2r t1d t2d : list ChannelRow.t) : list StructuralRow.t :=
  let byIdx := merge t1r tag1_residual [] in
  let byIdx := merge t2r tag2_residual byIdx in
  let byIdx := merge t1d tag1_detrend byIdx in
  let byIdx := merge t2d tag2_detrend byIdx in
  sortRows byIdx.

Section Merger.

(** The captioner handed to [buildCombinedStructuralRows] as its last
    argument; [None] when it does not return. *)
Variable captioner :
  option (list float) -> list float -> float -> float -> option (list Caption.t).

Definition makeRows (time : list float) (WIN HOP : float) (arr : list float)
    : option (list ChannelRow.t) :=
  match captioner (Some time) arr WIN HOP with
  | None => None
  | Some raw =>
      let T0 := get time 0 in
      Some (map (resolveRow time T0 WIN HOP) raw)
  end.

Definition buildCombinedStructuralRows (time : list float) (series : Series.t)
    (winSec hopSec : float) : option (list StructuralRow.t) :=
  let WIN := winSec in
  let HOP := hopSec in
  match makeRows time WIN HOP (Series.tag1_residual_rad series),
        makeRows time WIN HOP (Series.tag2_residual_rad series),
        makeRows time WIN HOP (Series.tag1_detrend_rad series),
        makeRows time WIN HOP (Series.tag2_detrend_rad series) with
  | Some t1r, Some t2r, Some t1d, Some t2d => Some (mergeAll t1r t2r t1d t2d)
  | _, _, _, _ => None
  end.

End Merger.

(** [buildCombinedStructuralSheet] has the body of
    [buildCombinedStructuralRows] with [slidingWindowCaptions] called
    directly. *)
Definition buildCombinedStructuralSheet (Math_pow : float -> float -> float)
    (fuel : nat) (time : list float) (series : Series.t) (winSec hopSec : float)
    : option (list StructuralRow.t) :=
  buildCombinedStructuralRows (slidingWindowCaptions Math_pow fuel)
    time series winSec hopSec.

(** * Vocabulary of the properties, and example inputs *)

(** ** Order of binary64 values *)

(** [a <= b] holds; neither side is NaN then. *)
Definition lef (a b : float) : Prop := (a <=? b) = true.
Definition notNaN (a : float) : Prop := is_nan a = false.

(** ** Cleaning *)

Section CleaningVocabulary.

Variable cell : Type.
Variable Number : cell -> float.

(** The retention rule in the words of the specification: the time and
    at least one required channel are finite. *)
Definition rowKeptAsSpecified (r : RawRow cell) : bool :=
  isFiniteNum (Number (r_time_s r))
  && (isFiniteNum (Number (r_tag1_residual_rad r))
      || isFiniteNum (Number (r_tag2_residual_rad r))
      || isFiniteNum (Number (r_tag1_detrend_rad r))
      || isFiniteNum (Number (r_tag2_detrend_rad r))).

(** The columns of a list of rows, every row taken. *)
Definition columnsOf (rows : list (RawRow cell)) : Columns.t :=
  Columns.mk
    (map (fun r => Number (r_time_s r)) rows)
    (map (fun r => Number (r_tag1_residual_rad r)) rows)
    (map (fun r => Number (r_tag2_residual_rad r)) rows)
    (map (fun r => Number (r_tag1_detrend_rad r)) rows)
    (map (fun r => Number (r_tag2_detrend_rad r)) rows).

End CleaningVocabulary.

Arguments rowKeptAsSpecified {cell}.
Arguments columnsOf {cell}.

(** Column-wise concatenation. *)
Definition appendColumns (c d : Columns.t) : Columns.t :=
  Columns.mk
    (Columns.time c ++ Columns.time d)
    (Columns.tag1_residual_rad c ++ Columns.tag1_residual_rad d)
    (Columns.tag2_residual_rad c ++ Columns.tag2_residual_rad d)
    (Columns.tag1_detrend_rad c ++ Columns.tag1_detrend_rad d)
    (Columns.tag2_detrend_rad c ++ Columns.tag2_detrend_rad d).

(** The repair loop as a recursion over the samples after the first,
    [prev] being the repaired value of the sample before. *)
Fixpoint repairFrom (prev : float) (rest : list float) : list float :=
  match rest with
  | [] => []
  | t :: rest' =>
      let t' := if negb (prev <? t) then prev + 1e-6 else t in
      t' :: repairFrom t' rest'
  end.

(** Nine rows at 0, 1, ..., 8 seconds; the row at 4 s has no number in
    the [tag2_residual_rad] column. *)
Definition nineRows : list (RawRow float) :=
  [mkRawRow 0 1 1 1 1; mkRawRow 1 1 1 1 1; mkRawRow 2 1 1 1 1;
   mkRawRow 3 1 1 1 1; mkRawRow 4 1 nan 1 1; mkRawRow 5 1 1 1 1;
   mkRawRow 6 1 1 1 1; mkRawRow 7 1 1 1 1; mkRawRow 8 1 1 1 1].

(** Eight rows whose first two time stamps are both 1e11 s. *)
Definition stalledRows : list (RawRow float) :=
  [mkRawRow 100000000000 1 1 1 1; mkRawRow 100000000000 1 1 1 1;
   mkRawRow 100000000001 1 1 1 1; mkRawRow 100000000002 1 1 1 1;
   mkRawRow 100000000003 1 1 1 1; mkRawRow 100000000004 1 1 1 1;
   mkRawRow 100000000005 1 1 1 1; mkRawRow 100000000006 1 1 1 1].

(** ** Feature extractors *)

(** The number of finite samples of a series. *)
Definition countFinite (x : list float) : nat := length (filter isFiniteNum x).

(** A sampling rate that is a finite positive number. *)
Definition finitePositive (fs : float) : bool := isFiniteNum fs && (0 <? fs).

(** [x ** 2] computed as [x * x]: an instance of [Math.pow] for running
    the captioner on examples (its argument [y] is 2 at every call). *)
Definition squarePow (x y : float) : float := x * x.

(** ** Sliding windows *)

(** The windows visited by [slidingWindowCaptions] on a time sequence of
    at least 2 samples. *)
Definition scannedWindows (fuel : nat) (time : list float) (winSec hopSec : float)
    : option (list Window.t) :=
  scanWindows fuel time (get time (length time - 1)) winSec hopSec (get time 0) 0.

(** The captions pushed for a list of windows, in order. *)
Definition captionsOf (Math_pow : float -> float -> float) (time y : list float)
    (winSec : float) (ws : list Window.t) : list Caption.t :=
  flat_map
    (fun w =>
       match captionOf Math_pow time y winSec (Window.k w) (Window.idx w) with
       | Some c => [c]
       | None => []
       end)
    ws.

(** What a window selects: the samples of [start, end), or of
    [start, end] when [closed]. *)
Definition selects (time : list float) (start end_ : float) (closed : bool)
    (idx : list nat) : Prop :=
  forall i,
    In i idx <->
    (i < length time)%nat
    /\ (start <=? get time i) = true
    /\ (if closed then get time i <=? end_ else get time i <? end_) = true.

(** The interval of a scanned window: it ends at [start + W], starts no
    later than 1e-9 before the last sample time [T1], and is half-open
    when its end is below [T1] and closed otherwise. *)
Definition intervalOf (time : list float) (winSec : float) (w : Window.t) : Prop :=
  let T1 := get time (length time - 1) in
  Window.end_ w = Window.start w + winSec
  /\ (Window.start w <=? T1 - 1e-9) = true
  /\ ((Window.end_ w <? T1) = true ->
      selects time (Window.start w) (Window.end_ w) false (Window.idx w))
  /\ ((Window.end_ w <? T1) = false ->
      selects time (Window.start w) (Window.end_ w) true (Window.idx w)).

(** Five samples half a second apart, and the four windows scanned over
    them with a window of 1 s and a hop of 0.5 s. *)
Definition halfSecondGrid : list float := [0; 0.5; 1; 1.5; 2].

Definition halfSecondGridWindows : list Window.t :=
  [Window.mk 0 0 1 [0; 1]%nat; Window.mk 1 0.5 1.5 [1; 2]%nat;
   Window.mk 2 1 2 [2; 3; 4]%nat; Window.mk 3 1.5 2.5 [3; 4]%nat].

(** ** Window bounds and the merged table *)

(** The bounds [makeRows] gives a caption row, for nominal bounds
    [nominalStart] and [nominalEnd]: [start_time] is the first sample at
    or after the nominal start, or the first sample of the series when
    there is none; [end_time] is the last sample at or before the nominal
    end when the start sample is one of them, and the start sample's own
    time when it is not. *)
Definition boundsResolved (time : list float) (T0 WIN HOP : float)
    (row : ChannelRow.t) : Prop :=
  let nominalStart := T0 + num (ChannelRow.window_index row) * HOP in
  let nominalEnd := nominalStart + WIN in
  exists si ei s e,
    nth_error time si = Some s /\ nth_error time ei = Some e
    /\ ChannelRow.start_time row = Some s /\ ChannelRow.end_time row = e
    /\ (si <= ei)%nat
    /\ (((nominalStart <=? s) = true
         /\ forall j t, (j < si)%nat -> nth_error time j = Some t ->
              (nominalStart <=? t) = false)
        \/ (si = 0%nat /\ forall t, In t time -> (nominalStart <=? t) = false))
    /\ (((s <=? nominalEnd) = true /\ (e <=? nominalEnd) = true
         /\ forall j t, (ei < j)%nat -> nth_error time j = Some t ->
              (t <=? nominalEnd) = false)
        \/ ((s <=? nominalEnd) = false /\ ei = si)).

(** The bounds of the row of window [k], if there is one. *)
Definition boundsAt (k : nat) (rows : list ChannelRow.t)
    : option (option float * float) :=
  option_map (fun r => (ChannelRow.start_time r, ChannelRow.end_time r))
    (find (fun r => (ChannelRow.window_index r =? k)%nat) rows).

(** Four samples, the two in the middle one rounding step apart at the
    sum of one hundred hops of 0.1 s, which is below 10 s. *)
Definition driftingTimes : list float :=
  [0; 9.9999999999999805; 9.9999999999999822; 20].

(** Three samples at magnitudes where a hop of 0.1 * 2^60 s accumulates
    rounding error: the last two are the sum of one hundred hops and the
    next binary64 value, both below one hundred times the hop. *)
Definition hugeTimes : list float :=
  [0; 11529215046068447232; 11529215046068449280].







Definition keysOf (M : list StructuralRow.t) : list nat :=
  map StructuralRow.window_index M.


Definition indexBelow (a b : StructuralRow.t) : Prop :=
  (StructuralRow.window_index a < StructuralRow.window_index b)%nat.

(** Four ramps over the half-second grid. *)
Definition gridSeries : Series.t :=
  Series.mk [0; 1; 2; 3; 4] [4; 3; 2; 1; 0] [0; 0; 0; 0; 0] [0; 1; 0; 1; 0].

(** * Vocabulary of the further properties *)

(** ** Autocorrelation *)

(** The mean-centred series and the raw lag sums computed by
    [autocorrDecayHalf] before its normalisation loop. *)
Definition centred (x : list float) : list float :=
  map (fun v => v - sum x / num (length x)) x.

Definition rawLag (x : list float) (lag : nat) : float :=
  lagSum (centred x) (length x) lag.


(** ** Transform size *)

(** The values [p] takes in the loop of [nextPow2]: the powers of two up
    to 2^30, then -2^31 and 0, where [p <<= 1] wraps. *)
Definition shiftOrbit : list Z :=
  map (fun i => 2 ^ Z.of_nat i)%Z (seq 0 31) ++ [(- 2 ^ 31)%Z; 0%Z].

(** [isPowerOfTwo(n) ? n : nextPow2(n)], the size [N] of the transform
    in [rfftPower]. *)
Definition transformSize (n : nat) : option Z :=
  if isPowerOfTwo (Z.of_nat n) then Some (Z.of_nat n) else nextPow2 (Z.of_nat n).


(** Ten entries of which nine are finite. *)
Definition nineSamples : list float := [1; 2; 3; 4; 5; nan; 6; 7; 8; 9].


(** ** Spectral and statistical features *)

(** The index found by the arg-max loop of [spectralFeatures]. *)
Definition dominantIndex (power : list float) : nat :=
  fold_left (fun idx i => if get power idx <? get power i then i else idx)
    (seq 1 (length power - 1)) 0%nat.

(** A stand-in for the FFT library, for running examples only: it
    returns its input as real parts with zero imaginary parts.  Every
    property below holds for any transform. *)
Definition exampleTransform (N : nat) (input : list float) : list float :=
  flat_map (fun v => [v; 0]) input.







(** Five aligned samples, too few for a spectrum. *)
Definition fiveTimes : list float := [0; 1; 2; 3; 4].
Definition fiveValues : list float := [2; 4; 1; 3; 5].


(** ** Captions and labels of the merged table *)

(** The positions of the scanned windows for which a caption is pushed:
    those that selected at least 2 samples. *)
Definition emittedIndices (ws : list Window.t) : list nat :=
  map Window.k (filter (fun w => negb (length (Window.idx w) <? 2)%nat) ws).

Definition captionIndices (caps : list Caption.t) : list nat :=
  map Caption.window_index caps.


Definition channelEqb (a b : Channel) : bool :=
  match a, b with
  | tag1_residual, tag1_residual | tag2_residual, tag2_residual
  | tag1_detrend, tag1_detrend | tag2_detrend, tag2_detrend => true
  | _, _ => false
  end.

(** The label field of a merged row that belongs to a channel. *)
Definition labelAt (key : Channel) (R : StructuralRow.t) : option Label :=
  match key with
  | tag1_residual => StructuralRow.tag1_residual_label R
  | tag2_residual => StructuralRow.tag2_residual_label R
  | tag1_detrend => StructuralRow.tag1_detrend_label R
  | tag2_detrend => StructuralRow.tag2_detrend_label R
  end.

(** The label of the last row of a channel with the index [k], if the
    channel has one. *)
Definition lastLabel (k : nat) (rows : list ChannelRow.t) : option Label :=
  fold_left
    (fun acc r => if (ChannelRow.window_index r =? k)%nat
                  then Some (ChannelRow.label r) else acc)
    rows None.

(** [byIdx.get(k)]: the first row of the map with the index [k]. *)
Definition findRow (k : nat) (M : list StructuralRow.t) : option StructuralRow.t :=
  find (fun R => (StructuralRow.window_index R =? k)%nat) M.

Definition labelOf (key : Channel) (k : nat) (M : list StructuralRow.t)
    : option Label :=
  match findRow k M with
  | Some R => labelAt key R
  | None => None
  end.

(** A merged row in which all four labels are present. *)
Definition fullyLabelled (R : StructuralRow.t) : Prop :=
  exists l1 l2 l3 l4,
    StructuralRow.tag1_residual_label R = Some l1
    /\ StructuralRow.tag2_residual_label R = Some l2
    /\ StructuralRow.tag1_detrend_label R = Some l3
    /\ StructuralRow.tag2_detrend_label R = Some l4.

(** The rows a channel hands to the merge. *)
Definition channelRows (key : Channel) (t1r t2r t1d t2d : list ChannelRow.t)
    : list ChannelRow.t :=
  match key with
  | tag1_residual => t1r
  | tag2_residual => t2r
  | tag1_detrend => t1d
  | tag2_detrend => t2d
  end.


(** ** The outcome of reading one file *)

(** The [needed] columns of [parseAll]. *)
Definition requiredColumns : list String.string :=
  ["time_s"; "tag1_residual_rad"; "tag2_residual_rad";
   "tag1_detrend_rad"; "tag2_detrend_rad"]%string.

(** [needed.filter((c) => !cols.includes(c))]. *)
Definition missingColumns (cols : list String.string) : list String.string :=
  filter (fun c => negb (existsb (String.eqb c) cols)) requiredColumns.

(** What [parseAll] does with one file: it logs the missing columns and
    skips it, logs the number of valid rows and skips it, or stores its
    cleaned columns.  The log line is kept as its payload. *)
Inductive FileOutcome :=
| MissingColumns (missing : list String.string)
| TooFewRows (valid : nat)
| Parsed (c : Columns.t).

(** The body of [for (const f of files)] in [parseAll], for the header
    fields [cols] and the data rows [raw] of the parsed file. *)
Definition parseFile {cell : Type} (Number : cell -> float)
    (cols : list String.string) (raw : list (RawRow cell)) : FileOutcome :=
  let missing := missingColumns cols in
  if negb (length missing =? 0)%nat then MissingColumns missing
  else
    let c := collectRows Number raw in
    if (length (Columns.time c) <? 8)%nat then TooFewRows (length (Columns.time c))
    else
      Parsed (Columns.mk (enforceIncreasing (Columns.time c))
                (Columns.tag1_residual_rad c) (Columns.tag2_residual_rad c)
                (Columns.tag1_detrend_rad c) (Columns.tag2_detrend_rad c)).

(** A strictly increasing step. *)
Definition ltf (a b : float) : Prop := (a <? b) = true.

(** ** Vocabulary of the sorting properties *)

(** The value of a finite binary64 number in units of 2^emin, the
    spacing of the subnormal numbers: an integer. *)
Definition scaled (f : spec_float) : Z :=
  match f with
  | S754_finite s m e => cond_Zopp s (Zpos m * 2 ^ (e - emin))%Z
  | _ => 0%Z
  end.

(** An infinite or non-zero finite result of sign [s]. *)
Definition signed (s : bool) (r : spec_float) : Prop :=
  match r with
  | S754_finite s' _ _ | S754_infinity s' => s' = s
  | _ => False
  end.

(** Zero or a non-zero finite number. *)
Definition finiteSF (f : spec_float) : Prop :=
  match f with
  | S754_zero _ | S754_finite _ _ _ => True
  | _ => False
  end.

(** How many entries of [l] are at most [m], and how many at least [m]. *)
Definition atMost (m : float) (l : list float) : nat :=
  length (filter (fun v => v <=? m) l).

Definition atLeast (m : float) (l : list float) : nat :=
  length (filter (fun v => m <=? v) l).

(** Samples with a middle pair, and with a middle entry. *)
Definition sixSamples : list float := [5; nan; 1; 4; infinity; 2; 3; 6].
Definition threeSamples : list float := [3; 1; nan; 2].

(** Three values, for a series shorter than its time sequence. *)
Definition threeValues : list float := [1; 2; 3].



(** * Properties *)

(** ** The order of binary64 values

    The comparisons of [float] are specified on [spec_float]
    ([FloatAxioms]); the facts the proofs below need are derived here. *)

Module FloatOrder.

Lemma SFleb_trans a b c :
  SFleb a b = true -> SFleb b c = true -> SFleb a c = true.
Proof.
  unfold SFleb, SFcompare.
  destruct a as [sa|sa| |sa ma ea], b as [sb|sb| |sb mb eb], c as [sc|sc| |sc mc ec];
    try destruct sa; try destruct sb; try destruct sc; simpl; try congruence;
    repeat match goal with
    | |- context [Z.compare ?x ?y] =>
        destruct (Z.compare_spec x y); subst; simpl; try congruence; try lia
    end;
    repeat match goal with
    | |- context [Pos.compare_cont Eq ?x ?y] =>
        change (Pos.compare_cont Eq x y) with (Pos.compare x y);
        destruct (Pos.compare_spec x y); subst; simpl; try congruence; try lia
    end.
Qed.

Lemma SFcompare_refl a : a <> S754_nan -> SFcompare a a = Some Eq.
Proof.
  destruct a as [s|s| |s m e]; simpl; try congruence; intros _.
  - destruct s; reflexivity.
  - destruct s; rewrite Z.compare_refl;
      change (Pos.compare_cont Eq m m) with (Pos.compare m m);
      rewrite Pos.compare_refl; reflexivity.
Qed.

Lemma SFleb_total a b :
  a <> S754_nan -> b <> S754_nan -> SFltb a b = false -> SFleb b a = true.
Proof.
  unfold SFleb, SFltb, SFcompare.
  destruct a as [sa|sa| |sa ma ea], b as [sb|sb| |sb mb eb];
    try destruct sa; try destruct sb; simpl; try congruence;
    intros _ _;
    rewrite (Z.compare_antisym ea eb);
    destruct (Z.compare ea eb); simpl; try congruence;
    change (Pos.compare_cont Eq mb ma) with (Pos.compare mb ma);
    change (Pos.compare_cont Eq ma mb) with (Pos.compare ma mb);
    rewrite (Pos.compare_antisym ma mb); destruct (Pos.compare ma mb); simpl; congruence.
Qed.

Lemma notNaN_spec x : notNaN x <-> Prim2SF x <> S754_nan.
Proof.
  unfold notNaN, is_nan. rewrite FloatAxioms.eqb_spec. unfold SFeqb.
  split.
  - intros H E. rewrite E in H. discriminate.
  - intros H. rewrite SFcompare_refl by exact H. reflexivity.
Qed.

Lemma lef_trans x y z : lef x y -> lef y z -> lef x z.
Proof. unfold lef. rewrite !FloatAxioms.leb_spec. apply SFleb_trans. Qed.

Lemma lef_refl x : notNaN x -> lef x x.
Proof.
  intros H%notNaN_spec. unfold lef. rewrite FloatAxioms.leb_spec.
  unfold SFleb. rewrite SFcompare_refl by exact H. reflexivity.
Qed.

Lemma ltb_lef x y : (x <? y) = true -> lef x y.
Proof.
  unfold lef. rewrite FloatAxioms.ltb_spec, FloatAxioms.leb_spec.
  unfold SFltb, SFleb. destruct (SFcompare _ _) as [[]|]; congruence.
Qed.

Lemma not_ltb_lef x y : notNaN x -> notNaN y -> (x <? y) = false -> lef y x.
Proof.
  intros Hx%notNaN_spec Hy%notNaN_spec. unfold lef.
  rewrite FloatAxioms.ltb_spec, FloatAxioms.leb_spec. now apply SFleb_total.
Qed.


Lemma isFiniteNum_notNaN x : isFiniteNum x = true -> notNaN x.
Proof.
  unfold isFiniteNum, notNaN. intros [_ H]%andb_prop. now destruct (is_nan x).
Qed.



End FloatOrder.

(** ** Arrays *)

Lemma update_length i v a : length (update i v a) = length a.
Proof.
  revert i; induction a as [|x a IH]; intros [|i]; simpl; auto.
Qed.

Lemma get_cons_S x a i : get (x :: a) (S i) = get a i.
Proof. reflexivity. Qed.

Lemma enforceIncreasing_length time :
  length (enforceIncreasing time) = length time.
Proof.
  unfold enforceIncreasing.
  generalize (seq 1 (length time - 1)) as idxs.
  intros idxs; revert time.
  induction idxs as [|i idxs IH]; intros time; simpl; [reflexivity|].
  rewrite IH. destruct (negb _); [apply update_length | reflexivity].
Qed.

(** ** Signal cleaning *)

Section CleaningFacts.

Variable cell : Type.
Variable Number : cell -> float.

Lemma appendColumns_empty_l c : appendColumns Columns.empty c = c.
Proof. destruct c; reflexivity. Qed.

Lemma pushRow_fold raw : forall c,
  fold_left (pushRow Number) raw c
  = appendColumns c (columnsOf Number (filter (rowKept Number) raw)).
Proof.
  induction raw as [|r raw IH]; intros c; simpl.
  - destruct c; unfold appendColumns; simpl; now rewrite !app_nil_r.
  - rewrite IH. unfold pushRow, rowKept.
    destruct (forallb isFiniteNum _); [|reflexivity].
    destruct c; unfold appendColumns; simpl. now rewrite <- !app_assoc.
Qed.

Lemma rowKept_all_finite r :
  rowKept Number r = true <->
  isFiniteNum (Number (r_time_s r)) = true
  /\ isFiniteNum (Number (r_tag1_residual_rad r)) = true
  /\ isFiniteNum (Number (r_tag2_residual_rad r)) = true
  /\ isFiniteNum (Number (r_tag1_detrend_rad r)) = true
  /\ isFiniteNum (Number (r_tag2_detrend_rad r)) = true.
Proof.
  unfold rowKept. simpl. rewrite !andb_true_iff. tauto.
Qed.

(** C1 (as amended): the collecting loop keeps exactly the rows whose
    time and all four channel values are finite, in their order and no
    others; the five cleaned columns are the columns of those rows, and a
    file is accepted exactly when at least 8 such rows exist, its channel
    columns then being theirs and its time column as long. *)
Theorem cleaning_keeps_all_finite_rows (raw : list (RawRow cell)) :
  let kept := filter (rowKept Number) raw in
  collectRows Number raw = columnsOf Number kept
  /\ (forall r, In r kept <->
        In r raw
        /\ isFiniteNum (Number (r_time_s r)) = true
        /\ isFiniteNum (Number (r_tag1_residual_rad r)) = true
        /\ isFiniteNum (Number (r_tag2_residual_rad r)) = true
        /\ isFiniteNum (Number (r_tag1_detrend_rad r)) = true
        /\ isFiniteNum (Number (r_tag2_detrend_rad r)) = true)
  /\ match cleanFile Number raw with
     | None => (length kept < 8)%nat
     | Some c =>
         (8 <= length kept)%nat
         /\ length (Columns.time c) = length kept
         /\ Columns.tag1_residual_rad c = Columns.tag1_residual_rad (columnsOf Number kept)
         /\ Columns.tag2_residual_rad c = Columns.tag2_residual_rad (columnsOf Number kept)
         /\ Columns.tag1_detrend_rad c = Columns.tag1_detrend_rad (columnsOf Number kept)
         /\ Columns.tag2_detrend_rad c = Columns.tag2_detrend_rad (columnsOf Number kept)
     end.
Proof.
  intros kept.
  assert (Hc : collectRows Number raw = columnsOf Number kept).
  { unfold collectRows. rewrite pushRow_fold. apply appendColumns_empty_l. }
  split; [exact Hc|]. split.
  - intros r. unfold kept. rewrite filter_In, rowKept_all_finite. tauto.
  - unfold cleanFile. rewrite Hc. cbn [Columns.time columnsOf].
    rewrite length_map.
    destruct (length kept <? 8)%nat eqn:E.
    + now apply Nat.ltb_lt.
    + apply Nat.ltb_ge in E. cbn. repeat split; try assumption.
      now rewrite enforceIncreasing_length, length_map.
Qed.

End CleaningFacts.

(** C1 (as stated) fails: the row at 4 s has a finite time and three
    finite channel values, so the stated rule retains all nine rows, but
    the cleaned file has eight rows and no sample at 4 s. *)
Lemma cleaning_drops_partly_finite_row :
  filter (rowKeptAsSpecified (fun v => v)) nineRows = nineRows
  /\ cleanFile (fun v => v) nineRows
     = Some (Columns.mk [0; 1; 2; 3; 5; 6; 7; 8]
               (repeat 1 8) (repeat 1 8) (repeat 1 8) (repeat 1 8)).
Proof. split; vm_compute; reflexivity. Qed.

(** ** Autocorrelation half-life *)

(** C9: for every series [x] of length [n], [autocorrDecayHalf x] is a
    lag between 0 and [n] inclusive. *)
Theorem autocorrDecayHalf_range (x : list float) :
  (0 <= autocorrDecayHalf x <= length x)%nat.
Proof.
  split; [apply Nat.le_0_l|].
  unfold autocorrDecayHalf.
  destruct (length x <? 3)%nat; [apply Nat.le_refl|].
  destruct (abs _ <? EPS); [apply Nat.le_0_l|].
  destruct (find _ _) as [i|] eqn:Hfind; [|apply Nat.le_refl].
  apply find_some in Hfind. destruct Hfind as [Hin _].
  apply in_seq in Hin. lia.
Qed.

Lemma get_repeat c n i : (i < n)%nat -> get (repeat c n) i = c.
Proof.
  unfold get. revert i; induction n as [|n IH]; intros [|i] H; simpl; try lia; auto.
  apply IH. lia.
Qed.

(** The lag sums of an all-zero centred series are +0. *)
Lemma lagSum_zeros n lag : lagSum (repeat 0 n) n lag = 0.
Proof.
  unfold lagSum.
  assert (H : forall idxs, Forall (fun i => (i + lag < n)%nat) idxs ->
            fold_left (fun s i => s + get (repeat 0 n) i * get (repeat 0 n) (i + lag))
              idxs 0 = 0).
  { induction idxs as [|i idxs IH]; intros HF; simpl; [reflexivity|].
    inversion HF; subst.
    rewrite !get_repeat by lia.
    change (0 + 0 * 0) with 0. now apply IH. }
  apply H. apply Forall_forall. intros i Hi%in_seq. lia.
Qed.

(** C5 (as amended): [autocorrDecayHalf] returns [n] for every series of
    length [n < 3]; for a constant series of length [n >= 3] whose
    centred samples are zero (the mean of the equal samples is computed
    exactly) the lag-0 energy is below the 1e-12 guard and it returns 0,
    not [n]. *)
Theorem autocorrDecayHalf_short_or_constant (x : list float) :
  ((length x < 3)%nat -> autocorrDecayHalf x = length x)
  /\ (forall c, x = repeat c (length x) -> (3 <= length x)%nat ->
        c - sum x / num (length x) = 0 ->
        autocorrDecayHalf x = 0%nat).
Proof.
  split.
  - intros H. unfold autocorrDecayHalf.
    apply Nat.ltb_lt in H. now rewrite H.
  - intros c Hx Hn Hc. unfold autocorrDecayHalf.
    destruct (length x <? 3)%nat eqn:E; [apply Nat.ltb_lt in E; lia|].
    assert (Hxc : map (fun v => v - sum x / num (length x)) x = repeat 0 (length x)).
    { transitivity (map (fun v => v - sum x / num (length x)) (repeat c (length x))).
      - now rewrite <- Hx.
      - rewrite map_repeat. now rewrite Hc. }
    rewrite Hxc.
    destruct (length x) as [|n']; [lia|].
    cbn [seq map]. unfold get at 1. cbn [nth_error toNumber].
    rewrite lagSum_zeros. reflexivity.
Qed.

(** [autocorrDecayHalf_short_or_constant] at a two-sample series and at
    the constant series 1, 1, 1. *)
Lemma autocorrDecayHalf_short_or_constant_witness :
  autocorrDecayHalf [1; 2] = 2%nat /\ autocorrDecayHalf [1; 1; 1] = 0%nat.
Proof.
  split.
  - apply (proj1 (autocorrDecayHalf_short_or_constant [1; 2])). simpl. lia.
  - apply (proj2 (autocorrDecayHalf_short_or_constant [1; 1; 1]) 1).
    + reflexivity.
    + simpl. lia.
    + vm_compute. reflexivity.
Defined.

(** C5 (as stated) fails: the constant series 1, 1, 1 has length 3 and
    [autocorrDecayHalf] returns 0 for it; for seven samples equal to
    123456789012.3 the rounded mean differs from the samples and the
    result is 1. *)
Lemma autocorrDecayHalf_constant_not_n :
  autocorrDecayHalf (repeat 1 3) = 0%nat
  /\ autocorrDecayHalf (repeat 123456789012.3 7) = 1%nat.
Proof. split; vm_compute; reflexivity. Qed.

(** ** Degenerate inputs of the feature extractors and the captioner *)

Section EngineFacts.

Variable Math_pow : float -> float -> float.
Variable Math_log2 : float -> float.
Variable fftSpectrum : nat -> list float -> list float.

Lemma not_finitePositive fs :
  finitePositive fs = false -> negb (isFiniteNum fs) || (fs <=? 0) = true.
Proof.
  unfold finitePositive. intros H.
  destruct (isFiniteNum fs) eqn:Hfin; [|reflexivity]. simpl in *.
  apply FloatOrder.not_ltb_lef; try assumption.
  - reflexivity.
  - now apply FloatOrder.isFiniteNum_notNaN.
Qed.

Lemma rfftPower_empty x fs :
  finitePositive fs = false \/ (countFinite x < 2)%nat ->
  rfftPower fftSpectrum x fs = Some (Spectrum.mk [] []).
Proof.
  intros H. unfold rfftPower.
  destruct (negb (isFiniteNum fs) || (fs <=? 0)) eqn:Hfs; [reflexivity|].
  destruct H as [H|H].
  - apply not_finitePositive in H. congruence.
  - apply Nat.ltb_lt in H. unfold countFinite in H. now rewrite H.
Qed.

(** C7 (as amended): [spectralFeatures] returns the all-NaN record, and
    returns it without calling the transform, whenever [fs] is not a
    finite positive number, or the series it is given has fewer than 8
    entries, or fewer than 2 of its entries are finite.  For a series of
    finite values, as [computeSeriesFeatures] passes, the second
    condition is that fewer than 8 finite samples remain. *)
Theorem spectralFeatures_degenerate (x : list float) (fs : float) :
  finitePositive fs = false \/ (length x < 8)%nat \/ (countFinite x < 2)%nat ->
  spectralFeatures Math_log2 fftSpectrum x fs = Some Spectral.allNaN.
Proof.
  intros H. unfold spectralFeatures.
  destruct (negb (isFiniteNum fs) || (length x <? 8)%nat) eqn:Hguard; [reflexivity|].
  apply orb_false_elim in Hguard. destruct Hguard as [_ Hlen].
  apply Nat.ltb_ge in Hlen.
  rewrite rfftPower_empty; [reflexivity|].
  destruct H as [H|[H|H]]; [now left | lia | now right].
Qed.

(** C4 (as amended): when fewer than 4 aligned finite samples remain,
    [computeSeriesFeatures] returns a FeatureVector whose field [n] is
    that sample count and whose 20 other fields are NaN. *)
Theorem computeSeriesFeatures_short (time yIn : list float) :
  let n := Nat.min (countFinite time) (countFinite yIn) in
  (n < 4)%nat ->
  exists v,
    computeSeriesFeatures Math_pow Math_log2 fftSpectrum time yIn = Some v
    /\ FeatureVector.n v = num n
    /\ FeatureVector.fields v
       = [nan; num n; nan; nan; nan; nan; nan; nan; nan; nan; nan; nan;
          nan; nan; nan; nan; nan; nan; nan; nan; nan].
Proof.
  intros n Hn. unfold computeSeriesFeatures.
  fold (countFinite time) (countFinite yIn). fold n.
  apply Nat.ltb_lt in Hn. rewrite Hn.
  eexists. split; [reflexivity|]. split; reflexivity.
Qed.

(** C10: [slidingWindowCaptions] returns the empty caption list when the
    time sequence is absent or has fewer than 2 samples, whatever the
    series, the window and the hop, and before any iteration of its scan
    (for every bound [fuel] on the iterations, 0 included). *)
Theorem slidingWindowCaptions_too_short (fuel : nat) (time : option (list float))
    (y : list float) (winSec hopSec : float) :
  time = None \/ (exists l, time = Some l /\ (length l < 2)%nat) ->
  slidingWindowCaptions Math_pow fuel time y winSec hopSec = Some [].
Proof.
  intros [->|[l [-> Hl]]]; simpl; [reflexivity|].
  apply Nat.ltb_lt in Hl. now rewrite Hl.
Qed.

End EngineFacts.

(** [spectralFeatures_degenerate] at a sampling rate of 0, at a series of
    7 samples and at a series of 8 entries of which one is finite. *)
Lemma spectralFeatures_degenerate_witness :
  (forall log2 fft, spectralFeatures log2 fft (repeat 1 16) 0 = Some Spectral.allNaN)
  /\ (forall log2 fft,
        spectralFeatures log2 fft [1; 2; 3; 4; 5; 6; 7] 10 = Some Spectral.allNaN)
  /\ (forall log2 fft,
        spectralFeatures log2 fft (1 :: repeat nan 7) 10 = Some Spectral.allNaN).
Proof.
  split; [|split]; intros log2 fft; apply (spectralFeatures_degenerate log2 fft).
  - left. reflexivity.
  - right; left. simpl. lia.
  - right; right. vm_compute. lia.
Defined.

(** C7 (as stated) fails: of the 8 entries of this series 4 are finite,
    fewer than 8, and the sampling rate is 1; the guard counts entries,
    the transform runs on the 4 finite samples, and the band sum over
    [10, 20) Hz is 0, not NaN, whatever the transform returns. *)
Lemma spectralFeatures_counts_entries :
  countFinite [1; 2; 3; 4; nan; nan; nan; nan] = 4%nat
  /\ finitePositive 1 = true
  /\ (forall log2 fft, exists v,
        spectralFeatures log2 fft [1; 2; 3; 4; nan; nan; nan; nan] 1 = Some v
        /\ Spectral.band_10_20 v = 0
        /\ Spectral.band_5_10 v = 0)
  /\ is_nan 0 = false.
Proof.
  repeat split; try reflexivity.
  intros log2 fft. eexists. split; [vm_compute; reflexivity|].
  split; reflexivity.
Qed.

(** [computeSeriesFeatures_short] at three aligned samples. *)
Lemma computeSeriesFeatures_short_witness :
  (Nat.min (countFinite [0; 1; 2]%float) (countFinite [5; 6; 7; nan]%float) < 4)%nat
  /\ forall pow log2 fft, exists v,
       computeSeriesFeatures pow log2 fft [0; 1; 2] [5; 6; 7; nan] = Some v
       /\ FeatureVector.n v = 3
       /\ FeatureVector.fields v
          = [nan; 3; nan; nan; nan; nan; nan; nan; nan; nan; nan; nan;
             nan; nan; nan; nan; nan; nan; nan; nan; nan].
Proof.
  assert (H : (Nat.min (countFinite [0; 1; 2]%float) (countFinite [5; 6; 7; nan]%float) < 4)%nat)
    by (vm_compute; lia).
  split; [exact H|].
  intros pow log2 fft.
  exact (computeSeriesFeatures_short pow log2 fft [0; 1; 2] [5; 6; 7; nan] H).
Defined.

(** C4 (as stated) fails: with three aligned samples the field [n] of
    the returned FeatureVector is the number 3, not NaN. *)
Lemma computeSeriesFeatures_short_keeps_count :
  (forall pow log2 fft, exists v,
     computeSeriesFeatures pow log2 fft [0; 1; 2] [5; 6; 7; nan] = Some v
     /\ FeatureVector.n v = 3)
  /\ is_nan 3 = false.
Proof.
  split; [|reflexivity].
  intros pow log2 fft. eexists. split; reflexivity.
Qed.

(** [slidingWindowCaptions_too_short] at an absent time sequence and at
    a single sample, with no iteration allowed. *)
Lemma slidingWindowCaptions_too_short_witness :
  (forall pow y, slidingWindowCaptions pow 0 None y 1 0.5 = Some [])
  /\ (forall pow y, slidingWindowCaptions pow 0 (Some [3]) y 1 0.5 = Some []).
Proof.
  split; intros pow y; apply (slidingWindowCaptions_too_short pow).
  - now left.
  - right. exists [3]. split; [reflexivity | simpl; lia].
Defined.

(** ** Sliding windows *)

Lemma fold_push_filter (p : nat -> bool) (l : list nat) : forall acc,
  fold_left (fun idx i => if p i then idx ++ [i] else idx) l acc = acc ++ filter p l.
Proof.
  induction l as [|i l IH]; intros acc; simpl.
  - now rewrite app_nil_r.
  - rewrite IH. destruct (p i); simpl; [now rewrite <- app_assoc | reflexivity].
Qed.

Lemma windowIdx_filter time T1 start end_ :
  windowIdx time T1 start end_
  = filter (fun i => inWin T1 start end_ (get time i)) (seq 0 (length time)).
Proof. unfold windowIdx. now rewrite fold_push_filter. Qed.

Lemma windowIdx_selects time T1 start end_ :
  selects time start end_ (negb (end_ <? T1)) (windowIdx time T1 start end_).
Proof.
  intros i. rewrite windowIdx_filter, filter_In, in_seq. unfold inWin.
  rewrite andb_true_iff. destruct (end_ <? T1); simpl; intuition lia.
Qed.

Section WindowFacts.

Variable Math_pow : float -> float -> float.

Lemma captionLoop_scanWindows time y T1 winSec hopSec fuel : forall start k out,
  captionLoop Math_pow fuel time y T1 winSec hopSec start k out
  = match scanWindows fuel time T1 winSec hopSec start k with
    | Some ws => Some (out ++ captionsOf Math_pow time y winSec ws)
    | None => None
    end.
Proof.
  induction fuel as [|fuel IH]; intros start k out; simpl; [reflexivity|].
  destruct (start <=? T1 - 1e-9); [|now rewrite app_nil_r].
  destruct (captionOf _ _ _ _ _ _) as [c|] eqn:Hc; rewrite IH;
    destruct (scanWindows _ _ _ _ _ _ _) as [ws|]; try reflexivity;
    unfold captionsOf; simpl; fold (captionsOf Math_pow time y winSec ws);
    rewrite Hc; simpl; [now rewrite <- app_assoc | reflexivity].
Qed.

Lemma scanWindows_each time T1 winSec hopSec fuel : forall start k ws,
  scanWindows fuel time T1 winSec hopSec start k = Some ws ->
  Forall
    (fun w =>
       Window.end_ w = Window.start w + winSec
       /\ (Window.start w <=? T1 - 1e-9) = true
       /\ selects time (Window.start w) (Window.end_ w)
            (negb (Window.end_ w <? T1)) (Window.idx w))
    ws.
Proof.
  induction fuel as [|fuel IH]; intros start k ws; simpl; [discriminate|].
  destruct (start <=? T1 - 1e-9) eqn:Hs.
  - destruct (scanWindows _ _ _ _ _ _ _) as [ws'|] eqn:Hrec; [|discriminate].
    intros [= <-]. constructor.
    + simpl. split; [reflexivity|]. split; [assumption|]. apply windowIdx_selects.
    + eapply IH; eassumption.
  - intros [= <-]. constructor.
Qed.

(** A scan that has exited within [fuel] iterations gives the same
    windows under any larger bound. *)
Lemma scanWindows_more_fuel time T1 winSec hopSec extra fuel : forall start k ws,
  scanWindows fuel time T1 winSec hopSec start k = Some ws ->
  scanWindows (fuel + extra) time T1 winSec hopSec start k = Some ws.
Proof.
  induction fuel as [|fuel IH]; intros start k ws; simpl; [discriminate|].
  destruct (start <=? T1 - 1e-9); [|auto].
  destruct (scanWindows fuel _ _ _ _ _ _) as [ws'|] eqn:Hrec; [|discriminate].
  intros [= <-]. now rewrite (IH _ _ _ Hrec).
Qed.

Lemma slidingWindowCaptions_more_fuel fuel extra time y winSec hopSec caps :
  slidingWindowCaptions Math_pow fuel time y winSec hopSec = Some caps ->
  slidingWindowCaptions Math_pow (fuel + extra) time y winSec hopSec = Some caps.
Proof.
  unfold slidingWindowCaptions. destruct time as [time|]; [|auto].
  destruct (length time <? 2)%nat; [auto|].
  rewrite !captionLoop_scanWindows.
  destruct (scanWindows fuel _ _ _ _ _ _) as [ws|] eqn:Hscan; [|discriminate].
  intros [= <-]. now rewrite (scanWindows_more_fuel _ _ _ _ extra _ _ _ _ Hscan).
Qed.

(** C2 (as amended): the captions of [slidingWindowCaptions] are those of
    the scanned windows, each window ending at [start + W], and whether a
    window is closed is decided by its own end, not by its position: a
    window whose end lies before the last sample time selects the
    samples of the half-open [start, start + W), and every other window
    selects those of the closed [start, start + W].  A window before the
    final admissible one can therefore include a sample exactly at its
    end, and the final admissible one can exclude it. *)
Theorem sliding_window_intervals (fuel : nat) (time y : list float)
    (winSec hopSec : float) (ws : list Window.t) :
  (2 <= length time)%nat ->
  scannedWindows fuel time winSec hopSec = Some ws ->
  slidingWindowCaptions Math_pow fuel (Some time) y winSec hopSec
  = Some (captionsOf Math_pow time y winSec ws)
  /\ Forall (intervalOf time winSec) ws.
Proof.
  intros Hlen Hscan. unfold scannedWindows in Hscan. split.
  - unfold slidingWindowCaptions.
    destruct (length time <? 2)%nat eqn:E; [apply Nat.ltb_lt in E; lia|].
    rewrite captionLoop_scanWindows, Hscan. reflexivity.
  - apply scanWindows_each in Hscan.
    eapply Forall_impl; [|exact Hscan].
    intros w (He & Hs & Hsel). unfold intervalOf.
    split; [assumption|]. split; [assumption|].
    split; intros Hend; rewrite Hend in Hsel; exact Hsel.
Qed.

End WindowFacts.

(** [sliding_window_intervals] on the half-second grid. *)
Lemma sliding_window_intervals_witness :
  scannedWindows 10 halfSecondGrid 1 0.5 = Some halfSecondGridWindows
  /\ forall pow y,
       slidingWindowCaptions pow 10 (Some halfSecondGrid) y 1 0.5
       = Some (captionsOf pow halfSecondGrid y 1 halfSecondGridWindows)
       /\ Forall (intervalOf halfSecondGrid 1) halfSecondGridWindows.
Proof.
  assert (H : scannedWindows 10 halfSecondGrid 1 0.5 = Some halfSecondGridWindows)
    by (vm_compute; reflexivity).
  split; [exact H|].
  intros pow y.
  apply (sliding_window_intervals pow 10 halfSecondGrid y 1 0.5 halfSecondGridWindows);
    [simpl; lia | exact H].
Defined.

(** C2 (as stated) fails both ways.  On the half-second grid the window
    at position 2 spans [1, 2]; it is not the final admissible window
    (position 3 follows), yet it selects sample 4, whose time 2 is
    exactly its end.  With samples at 0, 1, 7 and 10 s, a window of 1 s
    and a hop of 6 s, the final admissible window starts at 6 and ends at
    7, before the last sample, and it leaves out the sample at 7. *)
Lemma window_closure_follows_end_not_position :
  scannedWindows 10 halfSecondGrid 1 0.5 = Some halfSecondGridWindows
  /\ get halfSecondGrid 4 = 2
  /\ scannedWindows 10 [0; 1; 7; 10] 1 6
     = Some [Window.mk 0 0 1 [0]%nat; Window.mk 1 6 7 []].
Proof. repeat split; vm_compute; reflexivity. Qed.

(** ** The repair of the time column *)

Lemma get_mid pre p l : get (pre ++ p :: l) (length pre) = p.
Proof. induction pre as [|x pre IH]; [reflexivity | exact IH]. Qed.

Lemma get_mid_S pre p t l : get (pre ++ p :: t :: l) (S (length pre)) = t.
Proof. induction pre as [|x pre IH]; [reflexivity | exact IH]. Qed.

Lemma update_mid_S pre p t l v :
  update (S (length pre)) v (pre ++ p :: t :: l) = pre ++ p :: v :: l.
Proof.
  induction pre as [|x pre IH]; [reflexivity|].
  simpl. f_equal. exact IH.
Qed.

Lemma repair_loop rest : forall pre p,
  fold_left
    (fun time i =>
       if negb (get time (i - 1) <? get time i)
       then update i (get time (i - 1) + 1e-6) time
       else time)
    (seq (S (length pre)) (length rest)) (pre ++ p :: rest)
  = pre ++ p :: repairFrom p rest.
Proof.
  induction rest as [|t rest IH]; intros pre p; [reflexivity|].
  cbn [length seq fold_left repairFrom].
  replace (S (length pre) - 1)%nat with (length pre) by lia.
  rewrite get_mid, get_mid_S, update_mid_S.
  specialize (IH (pre ++ [p])).
  rewrite length_app in IH. cbn [length] in IH.
  replace (length pre + 1)%nat with (S (length pre)) in IH by lia.
  set (t' := if negb (p <? t) then p + 1e-6 else t).
  specialize (IH t'). rewrite <- !app_assoc in IH. cbn [app] in IH.
  rewrite <- IH. f_equal. subst t'. now destruct (negb (p <? t)).
Qed.

Lemma enforceIncreasing_repairFrom t0 rest :
  enforceIncreasing (t0 :: rest) = t0 :: repairFrom t0 rest.
Proof.
  unfold enforceIncreasing.
  replace (length (t0 :: rest) - 1)%nat with (length rest) by (simpl; lia).
  exact (repair_loop rest [] t0).
Qed.

(** Every step of the repaired sequence is either a strict increase of
    the input or the sum [prev + 1e-6]. *)
Lemma repairFrom_steps rest : forall prev,
  (forall v, In v (prev :: repairFrom prev rest) -> (v <? v + 1e-6) = true) ->
  forall i, (i < length rest)%nat ->
    (get (prev :: repairFrom prev rest) i <? get (prev :: repairFrom prev rest) (S i))
    = true.
Proof.
  induction rest as [|t rest IH]; intros prev Hgrow i Hi; simpl in Hi; [lia|].
  cbn [repairFrom] in *.
  set (t' := if negb (prev <? t) then prev + 1e-6 else t) in *.
  destruct i as [|i].
  - cbn. subst t'. destruct (prev <? t) eqn:E; simpl; [exact E|].
    apply Hgrow. now left.
  - rewrite !get_cons_S. apply IH; [|lia].
    intros v Hv. apply Hgrow. now right.
Qed.

(** The repair does enforce a strictly increasing time column whenever
    adding 1e-6 to a cleaned time value yields a larger number, which
    binary64 rounding grants only for magnitudes below about 2^33 s. *)
Lemma enforceIncreasing_strict_when_not_absorbed (time : list float) :
  (forall v, In v (enforceIncreasing time) -> (v <? v + 1e-6) = true) ->
  forall i, (S i < length time)%nat ->
    (get (enforceIncreasing time) i <? get (enforceIncreasing time) (S i)) = true.
Proof.
  destruct time as [|t0 rest]; intros Hgrow i Hi; simpl in Hi; [lia|].
  rewrite enforceIncreasing_repairFrom in *.
  apply repairFrom_steps; [exact Hgrow | lia].
Qed.

(** Under the same condition the repaired column is non-decreasing, the
    order that the window merge relies on. *)
Lemma repairFrom_sorted rest : forall prev,
  (forall v, In v (prev :: repairFrom prev rest) -> (v <? v + 1e-6) = true) ->
  Sorted lef (prev :: repairFrom prev rest).
Proof.
  induction rest as [|t rest IH]; intros prev Hgrow; cbn [repairFrom].
  - repeat constructor.
  - cbn [repairFrom] in Hgrow.
    set (t' := if negb (prev <? t) then prev + 1e-6 else t) in *.
    constructor.
    + apply IH. intros v Hv. apply Hgrow. now right.
    + constructor. apply FloatOrder.ltb_lef. subst t'.
      destruct (prev <? t) eqn:E; simpl; [exact E|]. apply Hgrow. now left.
Qed.

Lemma enforceIncreasing_sorted_when_not_absorbed (time : list float) :
  (forall v, In v (enforceIncreasing time) -> (v <? v + 1e-6) = true) ->
  Sorted lef (enforceIncreasing time).
Proof.
  destruct time as [|t0 rest]; intros Hgrow; [constructor|].
  rewrite enforceIncreasing_repairFrom in *. now apply repairFrom_sorted.
Qed.

(** C8: on [stalledRows] the repair sets the second time stamp to
    1e11 + 1e-6, which rounds back to 1e11: the cleaned time column keeps
    the two equal values and is not strictly increasing. *)
Theorem enforceIncreasing_absorbed_step :
  exists c,
    cleanFile (fun v => v) stalledRows = Some c
    /\ Columns.time c
       = [100000000000; 100000000000; 100000000001; 100000000002;
          100000000003; 100000000004; 100000000005; 100000000006]
    /\ (get (Columns.time c) 0 <? get (Columns.time c) 1) = false
    /\ 100000000000 + 1e-6 = 100000000000.
Proof.
  eexists. split; [vm_compute; reflexivity|].
  split; [reflexivity|]. split; reflexivity.
Qed.

(** ** Window bounds resolved to sample times *)

Import FloatOrder.

Lemma findIndexFrom_Some p a : forall i j,
  findIndexFrom p a i = Some j ->
  exists m t, j = (i + m)%nat /\ nth_error a m = Some t /\ p t = true
    /\ forall m' t', (m' < m)%nat -> nth_error a m' = Some t' -> p t' = false.
Proof.
  induction a as [|x a IH]; intros i j; simpl; [discriminate|].
  destruct (p x) eqn:Hp.
  - intros [= <-]. exists 0%nat, x.
    split; [lia|]. split; [reflexivity|]. split; [exact Hp|]. intros; lia.
  - intros H. apply IH in H. destruct H as (m & t & -> & Hn & Ht & Hbefore).
    exists (S m), t.
    split; [lia|]. split; [exact Hn|]. split; [exact Ht|].
    intros [|m'] t' Hlt; simpl; [intros [= <-]; exact Hp|].
    apply Hbefore. lia.
Qed.

Lemma findIndexFrom_None p a : forall i,
  findIndexFrom p a i = None -> forall t, In t a -> p t = false.
Proof.
  induction a as [|x a IH]; intros i; simpl; [tauto|].
  destruct (p x) eqn:Hp; [discriminate|].
  intros H t [<-|Hin]; [exact Hp | eapply IH; eassumption].
Qed.

(** Where the end scan stops: at [ei0] when the first sample is beyond
    the nominal end, and otherwise at the end of the run of samples at or
    before it. *)
Lemma scanEnd_spec nominalEnd rest : forall i ei0,
  (match rest with
   | [] => True
   | t :: _ => (t <=? nominalEnd) = false
   end /\ scanEnd rest i nominalEnd ei0 = ei0)
  \/ exists m e,
       scanEnd rest i nominalEnd ei0 = (i + m)%nat
       /\ nth_error rest m = Some e
       /\ (forall m' t, (m' <= m)%nat -> nth_error rest m' = Some t ->
             (t <=? nominalEnd) = true)
       /\ (forall t, nth_error rest (S m) = Some t -> (t <=? nominalEnd) = false).
Proof.
  induction rest as [|x rest IH]; intros i ei0; simpl; [now left|].
  destruct (x <=? nominalEnd) eqn:Hx; [|now left].
  right. destruct (IH (S i) i) as [[Hhead Hstop]|(m & e & Hres & Hn & Hrun & Hnext)].
  - exists 0%nat, x. rewrite Hstop.
    split; [lia|]. split; [reflexivity|]. split.
    + intros m' t Hle. replace m' with 0%nat by lia. simpl.
      intros [= <-]. exact Hx.
    + simpl. destruct rest; simpl; [discriminate|].
      intros t [= <-]. exact Hhead.
  - exists (S m), e. rewrite Hres.
    split; [lia|]. split; [exact Hn|]. split.
    + intros [|m'] t Hle; simpl; [intros [= <-]; exact Hx|].
      apply Hrun. lia.
    + exact Hnext.
Qed.

Lemma StronglySorted_nth (R : float -> float -> Prop) l :
  StronglySorted R l ->
  forall i j a b, (i < j)%nat -> nth_error l i = Some a -> nth_error l j = Some b ->
    R a b.
Proof.
  induction 1 as [|x l Hs IH Hall]; intros i j a b Hij Hi Hj.
  - destruct i; discriminate.
  - destruct j as [|j]; [lia|]. destruct i as [|i]; simpl in *.
    + injection Hi as <-. rewrite Forall_forall in Hall.
      apply Hall. eapply nth_error_In; eassumption.
    + eapply IH; [|eassumption|eassumption]. lia.
Qed.

Lemma Sorted_lef_strong time : Sorted lef time -> StronglySorted lef time.
Proof.
  apply Sorted_StronglySorted. intros x y z. apply lef_trans.
Qed.

Lemma resolveRow_bounds time T0 WIN HOP r :
  time <> [] -> Sorted lef time ->
  boundsResolved time T0 WIN HOP (resolveRow time T0 WIN HOP r).
Proof.
  intros Hne Hsorted. apply Sorted_lef_strong in Hsorted.
  unfold boundsResolved, resolveRow. cbn [ChannelRow.window_index
    ChannelRow.start_time ChannelRow.end_time].
  set (nominalStart := T0 + num (Caption.window_index r) * HOP).
  set (nominalEnd := nominalStart + WIN).
  set (si := match findIndex _ time with Some i => i | None => 0%nat end).
  assert (Hsi : exists s, nth_error time si = Some s
            /\ (((nominalStart <=? s) = true
                 /\ forall j t, (j < si)%nat -> nth_error time j = Some t ->
                      (nominalStart <=? t) = false)
                \/ (si = 0%nat
                    /\ forall t, In t time -> (nominalStart <=? t) = false))).
  { subst si. unfold findIndex.
    destruct (findIndexFrom _ time 0) as [i|] eqn:Hf.
    - apply findIndexFrom_Some in Hf.
      destruct Hf as (m & t & -> & Hn & Ht & Hbefore).
      exists t. split; [exact Hn|]. left. split; [exact Ht|].
      intros j t' Hj. now apply Hbefore.
    - destruct time as [|t0 time']; [congruence|].
      exists t0. split; [reflexivity|]. right. split; [reflexivity|].
      eapply findIndexFrom_None. exact Hf. }
  destruct Hsi as (s & Hs & Hstart).
  assert (Hskip : forall m, nth_error (skipn si time) m = nth_error time (si + m)).
  { intros m. apply nth_error_skipn. }
  destruct (scanEnd_spec nominalEnd (skipn si time) si si)
    as [[Hhead Hstop]|(m & e & Hres & Hn & Hrun & Hnext)].
  - rewrite Hstop, Hs. exists si, si, s, s.
    split; [exact Hs|]. split; [exact Hs|]. split; [reflexivity|].
    split; [reflexivity|]. split; [lia|]. split; [exact Hstart|].
    right. split; [|reflexivity].
    specialize (Hskip 0%nat). rewrite Nat.add_0_r, Hs in Hskip.
    destruct (skipn si time); [discriminate|].
    simpl in Hskip. injection Hskip as ->. exact Hhead.
  - rewrite Hres. rewrite Hskip in Hn. rewrite Hn.
    exists si, (si + m)%nat, s, e.
    split; [exact Hs|]. split; [exact Hn|]. split; [exact Hs|].
    split; [reflexivity|]. split; [lia|]. split; [exact Hstart|].
    left. split; [|split].
    + apply (Hrun 0%nat s); [lia|]. now rewrite Hskip, Nat.add_0_r.
    + apply (Hrun m e); [lia|]. now rewrite Hskip.
    + intros j t Hj Hjt.
      destruct (t <=? nominalEnd) eqn:Ht; [|reflexivity].
      destruct (nth_error time (si + S m)) as [t1|] eqn:Hnext1.
      * assert (Ht1 : (t1 <=? nominalEnd) = false).
        { apply Hnext. now rewrite Hskip. }
        destruct (Nat.eq_dec j (si + S m)) as [->|Hneq]; [congruence|].
        assert (Hle : lef t1 t).
        { eapply (StronglySorted_nth lef time Hsorted (si + S m) j); eauto. lia. }
        assert (Hcontra : lef t1 nominalEnd) by (eapply lef_trans; eassumption).
        unfold lef in Hcontra. congruence.
      * apply nth_error_None in Hnext1.
        assert (Hjlt : (j < length time)%nat).
        { apply nth_error_Some. congruence. }
        lia.
Qed.

Section BoundsFacts.

Variable captioner :
  option (list float) -> list float -> float -> float -> option (list Caption.t).

Lemma makeRows_resolved time WIN HOP arr rows :
  time <> [] -> Sorted lef time ->
  makeRows captioner time WIN HOP arr = Some rows ->
  forall row, In row rows -> boundsResolved time (get time 0) WIN HOP row.
Proof.
  intros Hne Hsorted. unfold makeRows.
  destruct (captioner (Some time) arr WIN HOP) as [raw|]; [|discriminate].
  intros [= <-] row Hin.
  apply in_map_iff in Hin. destruct Hin as (r & <- & _).
  now apply resolveRow_bounds.
Qed.

(** C3 (as amended): for a sorted, non-empty time sequence, every
    per-channel caption row of [makeRows] has as [start_time] the
    timestamp of the first sample at or after the nominal window start,
    and the first sample of the series when there is none; as [end_time]
    the timestamp of the last sample at or before the nominal window end
    when the start sample is at or before it, and the start sample's
    timestamp when it is not.  The nominal bounds themselves are never
    the fallback. *)
Theorem makeRows_bounds (time : list float) (WIN HOP : float) (arr : list float)
    (rows : list ChannelRow.t) :
  time <> [] -> Sorted lef time ->
  makeRows captioner time WIN HOP arr = Some rows ->
  Forall (boundsResolved time (get time 0) WIN HOP) rows.
Proof.
  intros Hne Hsorted Hrows. apply Forall_forall.
  eapply makeRows_resolved; eassumption.
Qed.

End BoundsFacts.

(** [makeRows_bounds] on the half-second grid with the ramp 0, 1, 2, 3, 4. *)
Lemma makeRows_bounds_witness :
  exists rows,
    makeRows (slidingWindowCaptions squarePow 10) halfSecondGrid 1 0.5 [0; 1; 2; 3; 4]
    = Some rows
    /\ map ChannelRow.window_index rows = [0; 1; 2; 3]%nat
    /\ Forall (boundsResolved halfSecondGrid (get halfSecondGrid 0) 1 0.5) rows.
Proof.
  eexists. split; [vm_compute; reflexivity|]. split; [reflexivity|].
  apply (makeRows_bounds (slidingWindowCaptions squarePow 10)
           halfSecondGrid 1 0.5 [0; 1; 2; 3; 4]).
  - discriminate.
  - repeat constructor.
  - vm_compute. reflexivity.
Defined.

(** C3 (as stated) fails.  With [driftingTimes], a window of 1 s and a hop
    of 0.1 s, window 100 is emitted for the two middle samples; its
    nominal bounds are 10 and 11, the last sample at or before 11 is the
    one at 9.9999999999999822, and the row's [end_time] is 20, the time
    of its start sample.  With [hugeTimes], a window of 2^60 s and a hop
    of 0.1 * 2^60 s, window 100 has the nominal start 10 * 2^60, no
    sample is at or after it, and the row's [start_time] is 0, the first
    sample, not the nominal start. *)
Lemma resolved_bounds_fall_back_to_samples :
  (forall pow y,
     option_map (boundsAt 100)
       (makeRows (slidingWindowCaptions pow 300) driftingTimes 1 0.1 y)
     = Some (Some (Some 20, 20)))
  /\ get driftingTimes 0 + num 100 * 0.1 = 10
  /\ 10 + 1 = 11
  /\ (get driftingTimes 2 <=? 11) = true
  /\ (forall pow y,
        option_map (boundsAt 100)
          (makeRows (slidingWindowCaptions pow 150) hugeTimes
             1152921504606846976 115292150460684704 y)
        = Some (Some (Some 0, 11529215046068449280)))
  /\ get hugeTimes 0 + num 100 * 115292150460684704 = 11529215046068469760
  /\ forallb (fun t => t <? 11529215046068469760) hugeTimes = true.
Proof.
  split; [intros pow y; vm_compute; reflexivity|].
  split; [vm_compute; reflexivity|].
  split; [vm_compute; reflexivity|].
  split; [vm_compute; reflexivity|].
  split; [intros pow y; vm_compute; reflexivity|].
  split; vm_compute; reflexivity.
Qed.

(** ** The merged structural table *)

Lemma widen_index key r row :
  StructuralRow.window_index (widen key r row) = StructuralRow.window_index row.
Proof. destruct row, key; reflexivity. Qed.












Lemma upsert_keys key r M :
  keysOf (upsert key r M)
  = if existsb (Nat.eqb (ChannelRow.window_index r)) (keysOf M)
    then keysOf M else keysOf M ++ [ChannelRow.window_index r].
Proof.
  unfold keysOf. induction M as [|row M IH]; cbn [upsert map existsb app].
  - now rewrite widen_index.
  - rewrite (Nat.eqb_sym (ChannelRow.window_index r)).
    destruct (StructuralRow.window_index row =? ChannelRow.window_index r)%nat eqn:E;
      cbn [map orb].
    + now rewrite widen_index.
    + rewrite IH. now destruct (existsb _ _).
Qed.

Lemma existsb_eqb_In k l : existsb (Nat.eqb k) l = true <-> In k l.
Proof.
  rewrite existsb_exists. split.
  - intros (x & Hin & ->%Nat.eqb_eq). exact Hin.
  - intros Hin. exists k. split; [exact Hin | apply Nat.eqb_refl].
Qed.





(** *** The final sort *)

Lemma insertRow_In r rows x : In x (insertRow r rows) <-> x = r \/ In x rows.
Proof.
  induction rows as [|y rows IH]; simpl; [intuition|].
  destruct (StructuralRow.window_index y <? StructuralRow.window_index r)%nat; simpl.
  - rewrite IH. intuition.
  - intuition.
Qed.

Lemma sortRows_In rows x : In x (sortRows rows) <-> In x rows.
Proof.
  induction rows as [|y rows IH]; simpl; [tauto|].
  rewrite insertRow_In, IH. intuition.
Qed.







Section TableFacts.

Variable Math_pow : float -> float -> float.



End TableFacts.


(** * Further properties of the engine *)

(** ** Median *)

Lemma insertNum_length x a : length (insertNum x a) = S (length a).
Proof.
  induction a as [|y a IH]; simpl; [reflexivity|].
  destruct (y - x <? 0); simpl; [now rewrite IH | reflexivity].
Qed.

Lemma insertNum_In x a v : In v (insertNum x a) <-> v = x \/ In v a.
Proof.
  induction a as [|y a IH]; simpl; [intuition|].
  destruct (y - x <? 0); simpl; [rewrite IH|]; intuition.
Qed.

Lemma sortNum_length a : length (sortNum a) = length a.
Proof.
  induction a as [|x a IH]; simpl; [reflexivity|].
  now rewrite insertNum_length, IH.
Qed.

Lemma sortNum_In a v : In v (sortNum a) <-> In v a.
Proof.
  induction a as [|x a IH]; simpl; [tauto|].
  rewrite insertNum_In, IH. intuition.
Qed.

Lemma get_In a i : (i < length a)%nat -> In (get a i) a.
Proof.
  intros H. unfold get. destruct (nth_error a i) as [v|] eqn:E.
  - simpl. eapply nth_error_In; eassumption.
  - apply nth_error_None in E. lia.
Qed.

(** ** The normalisation loop of the autocorrelation half-life *)

Lemma update_mid pre p l v : update (length pre) v (pre ++ p :: l) = pre ++ v :: l.
Proof.
  induction pre as [|x pre IH]; [reflexivity|]. simpl. f_equal. exact IH.
Qed.

Lemma find_ext_in (f g : nat -> bool) l :
  (forall i, In i l -> f i = g i) -> find f l = find g l.
Proof.
  induction l as [|i l IH]; intros H; simpl; [reflexivity|].
  rewrite <- (H i) by now left.
  destruct (f i); [reflexivity|]. apply IH. intros j Hj. apply H. now right.
Qed.

Lemma get_map_seq (f : nat -> float) n i :
  (i < n)%nat -> get (map f (seq 0 n)) i = f i.
Proof.
  intros H. unfold get. rewrite nth_error_map, nth_error_seq.
  apply Nat.ltb_lt in H. rewrite H. reflexivity.
Qed.

(** After lag 0 has been divided by itself, the loop divides every later
    lag by that quotient. *)
Lemma normalize_tail d rest : forall pre,
  fold_left (fun ac i => update i (get ac i / get ac 0) ac)
    (seq (S (length pre)) (length rest)) (d :: pre ++ rest)
  = d :: pre ++ map (fun v => v / d) rest.
Proof.
  induction rest as [|v rest IH]; intros pre; [reflexivity|].
  cbn [length seq fold_left map].
  change (d :: pre ++ v :: rest) with ((d :: pre) ++ v :: rest).
  replace (S (length pre)) with (length (d :: pre)) at 1 2 by reflexivity.
  rewrite get_mid, update_mid. cbn [app get nth_error toNumber].
  specialize (IH (pre ++ [v / d])).
  rewrite length_app in IH. cbn [length] in IH.
  replace (length pre + 1)%nat with (S (length pre)) in IH by lia.
  rewrite <- !app_assoc in IH. cbn [app] in IH. exact IH.
Qed.

Lemma normalizeInPlace_cons a0 rest :
  normalizeInPlace (S (length rest)) (a0 :: rest)
  = a0 / a0 :: map (fun v => v / (a0 / a0)) rest.
Proof.
  unfold normalizeInPlace. cbn [seq fold_left update get nth_error toNumber].
  exact (normalize_tail (a0 / a0) rest []).
Qed.

(** X2: for a series of at least 3 samples whose lag-0 energy is not
    below the 1e-12 guard, [autocorrDecayHalf] returns the first lag
    [i >= 1] at which the raw lag sum divided by [ac0 / ac0] is below
    0.5, and [n] when there is none: its loop [ac[i] /= ac[0]] has by
    then replaced [ac[0]] by [ac0 / ac0], so no lag is divided by the
    lag-0 energy itself. *)
Theorem autocorrDecayHalf_divides_by_normalised_lag0 (x : list float) :
  (3 <= length x)%nat ->
  (abs (rawLag x 0) <? EPS) = false ->
  autocorrDecayHalf x
  = match find (fun i => rawLag x i / (rawLag x 0 / rawLag x 0) <? 0.5)
            (seq 1 (length x - 1)) with
    | Some i => i
    | None => length x
    end.
Proof.
  intros Hn Henergy. unfold autocorrDecayHalf.
  destruct (length x <? 3)%nat eqn:E; [apply Nat.ltb_lt in E; lia|].
  fold (centred x).
  destruct (length x) as [|m] eqn:Hlen; [lia|].
  assert (H0 : get (map (lagSum (centred x) (S m)) (seq 0 (S m))) 0 = rawLag x 0).
  { unfold rawLag. now rewrite Hlen. }
  rewrite H0, Henergy.
  cbn [seq map]. rewrite <- seq_shift, map_map.
  pose proof (normalizeInPlace_cons (lagSum (centred x) (S m) 0)
                (map (fun i => lagSum (centred x) (S m) (S i)) (seq 0 m))) as Hnorm.
  rewrite length_map, length_seq in Hnorm. rewrite Hnorm.
  replace (S m - 1)%nat with m by lia.
  rewrite (find_ext_in _
             (fun i => rawLag x i / (rawLag x 0 / rawLag x 0) <? 0.5)).
  - reflexivity.
  - intros i Hi. apply in_seq in Hi.
    destruct i as [|i]; [lia|]. rewrite get_cons_S, map_map.
    rewrite (get_map_seq (fun j => lagSum (centred x) (S m) (S j)
                                   / (lagSum (centred x) (S m) 0
                                      / lagSum (centred x) (S m) 0)) m i) by lia.
    unfold rawLag. now rewrite Hlen.
Qed.

(** [autocorrDecayHalf_divides_by_normalised_lag0] on the ramp
    1, 2, ..., 6, where the lag found is 3. *)
Lemma autocorrDecayHalf_divides_by_normalised_lag0_witness :
  autocorrDecayHalf [1; 2; 3; 4; 5; 6]
  = match find (fun i => rawLag [1; 2; 3; 4; 5; 6] i
                         / (rawLag [1; 2; 3; 4; 5; 6] 0 / rawLag [1; 2; 3; 4; 5; 6] 0)
                         <? 0.5)
            (seq 1 (length [1; 2; 3; 4; 5; 6]%float - 1)) with
    | Some i => i
    | None => length [1; 2; 3; 4; 5; 6]%float
    end.
Proof.
  apply (autocorrDecayHalf_divides_by_normalised_lag0 [1; 2; 3; 4; 5; 6]).
  - simpl. lia.
  - vm_compute. reflexivity.
Defined.

(** ** The size of the transform *)

#[local] Open Scope Z_scope.

Lemma toInt32_small z : 0 <= z < 2 ^ 31 -> toInt32 z = z.
Proof.
  intros H. unfold toInt32.
  rewrite Z.mod_small by (change (2 ^ 32) with (2 * 2 ^ 31); lia).
  destruct (z <? 2 ^ 31) eqn:E; [reflexivity|]. apply Z.ltb_ge in E. lia.
Qed.

Lemma land_pred_pow2 k : 0 <= k -> Z.land (2 ^ k) (2 ^ k - 1) = 0.
Proof.
  intros Hk. replace (2 ^ k - 1) with (Z.ones k) by (rewrite Z.ones_equiv; lia).
  rewrite Z.land_ones by exact Hk. apply Z.mod_same. apply Z.pow_nonzero; lia.
Qed.

Lemma land_pred_zero n :
  1 < n -> Z.land n (n - 1) = 0 -> n = 2 ^ Z.log2 n.
Proof.
  intros Hn Hland.
  destruct (Z.log2_spec n ltac:(lia)) as [Hlo Hhi].
  destruct (Z.eq_dec n (2 ^ Z.log2 n)) as [Heq|Hneq]; [exact Heq|exfalso].
  assert (Hk : 0 <= Z.log2 n) by apply Z.log2_nonneg.
  assert (Hlog : Z.log2 (n - 1) = Z.log2 n).
  { apply Z.log2_unique; [exact Hk|].
    rewrite <- Z.add_1_r, Z.pow_add_r in * by lia. lia. }
  assert (Hbit : Z.testbit (Z.land n (n - 1)) (Z.log2 n) = true).
  { rewrite Z.land_spec, Z.bit_log2 by lia.
    rewrite <- Hlog. rewrite Z.bit_log2; [reflexivity|].
    assert (0 < 2 ^ Z.log2 n) by (apply Z.pow_pos_nonneg; lia). lia. }
  rewrite Hland, Z.bits_0 in Hbit. discriminate.
Qed.

(** X3: on an array length below 2^31, [isPowerOfTwo] holds exactly for
    2, 4, ..., 2^30; 0 and 1 are not powers of two for it. *)
Theorem isPowerOfTwo_spec (n : Z) :
  0 <= n < 2 ^ 31 ->
  (isPowerOfTwo n = true <-> exists k, 1 <= k <= 30 /\ n = 2 ^ k).
Proof.
  intros Hn. unfold isPowerOfTwo. rewrite andb_true_iff, Z.ltb_lt, Z.eqb_eq.
  split.
  - intros [H1 Hland].
    rewrite !toInt32_small in Hland by lia.
    apply land_pred_zero in Hland; [|exact H1].
    exists (Z.log2 n). split; [|exact Hland].
    assert (Hk : 0 <= Z.log2 n) by apply Z.log2_nonneg.
    split.
    + destruct (Z.eq_dec (Z.log2 n) 0) as [E|E]; [|lia].
      rewrite E in Hland. simpl in Hland. lia.
    + assert (Z.log2 n < 31); [|lia].
      apply Z.log2_lt_pow2; lia.
  - intros (k & Hk & ->).
    assert (Hlt : 2 ^ 1 <= 2 ^ k) by (apply Z.pow_le_mono_r; lia).
    change (2 ^ 1) with 2 in Hlt.
    split; [lia|].
    rewrite !toInt32_small by lia. apply land_pred_pow2. lia.
Qed.

(** [isPowerOfTwo_spec] at 8 and at 6. *)
Lemma isPowerOfTwo_spec_witness :
  (isPowerOfTwo 8 = true <-> exists k, 1 <= k <= 30 /\ 8 = 2 ^ k)
  /\ (isPowerOfTwo 6 = true <-> exists k, 1 <= k <= 30 /\ 6 = 2 ^ k).
Proof.
  split; apply isPowerOfTwo_spec; lia.
Defined.

Lemma nextPow2_loop_spec n : n <= 2 ^ 30 -> forall steps i,
  0 <= i <= 30 -> (30 - i < Z.of_nat steps) ->
  (i = 0 \/ 2 ^ (i - 1) < Z.max 2 n) ->
  exists k, i <= k <= 30
    /\ nextPow2_loop steps (2 ^ i) n = Some (2 ^ k)
    /\ Z.max 2 n <= 2 ^ k
    /\ (k = 0 \/ 2 ^ (k - 1) < Z.max 2 n).
Proof.
  intros Hn. induction steps as [|steps IH]; intros i Hi Hsteps Hmin; [lia|].
  cbn [nextPow2_loop].
  destruct (2 ^ i <? Z.max 2 n) eqn:E.
  - apply Z.ltb_lt in E.
    assert (Hi30 : i < 30).
    { destruct (Z.eq_dec i 30) as [->|]; [lia|lia]. }
    assert (Hpow : 2 ^ (i + 1) = 2 * 2 ^ i) by (rewrite Z.pow_add_r by lia; lia).
    assert (Hle : 2 ^ (i + 1) <= 2 ^ 30) by (apply Z.pow_le_mono_r; lia).
    rewrite Z.shiftl_mul_pow2 by lia. change (2 ^ 1) with 2.
    replace (2 ^ i * 2) with (2 ^ (i + 1)) by lia.
    rewrite toInt32_small.
    2:{ assert (0 < 2 ^ (i + 1)) by (apply Z.pow_pos_nonneg; lia). lia. }
    destruct (IH (i + 1)) as (k & Hk & Hres & Hge & Hsmall); try lia.
    { right. now replace (i + 1 - 1) with i by lia. }
    exists k. repeat split; try assumption; lia.
  - apply Z.ltb_ge in E. exists i. repeat split; try lia; auto.
Qed.

(** X4: for a length [n] up to 2^30, [nextPow2] returns the smallest
    power of two that is at least [max(2, n)]. *)
Theorem nextPow2_spec (n : Z) :
  n <= 2 ^ 30 ->
  exists k, 1 <= k <= 30
    /\ nextPow2 n = Some (2 ^ k)
    /\ Z.max 2 n <= 2 ^ k
    /\ 2 ^ (k - 1) < Z.max 2 n.
Proof.
  intros Hn. unfold nextPow2.
  destruct (nextPow2_loop_spec n Hn 40 0) as (k & Hk & Hres & Hge & Hsmall);
    [lia | simpl; lia | now left|].
  change (2 ^ 0) with 1 in Hres.
  assert (Hk1 : 1 <= k).
  { destruct (Z.eq_dec k 0) as [->|]; [simpl in Hge; lia | lia]. }
  exists k. repeat split; try assumption; lia.
Qed.

(** [nextPow2_spec] at 9 samples, where the size is 16. *)
Lemma nextPow2_spec_witness :
  exists k, 1 <= k <= 30
    /\ nextPow2 9 = Some (2 ^ k)
    /\ Z.max 2 9 <= 2 ^ k
    /\ 2 ^ (k - 1) < Z.max 2 9.
Proof. apply (nextPow2_spec 9). lia. Defined.

Lemma shiftOrbit_closed p :
  In p shiftOrbit -> In (toInt32 (Z.shiftl p 1)) shiftOrbit /\ p <= 2 ^ 30.
Proof.
  assert (H : forallb
                (fun p => existsb (Z.eqb (toInt32 (Z.shiftl p 1))) shiftOrbit
                          && (p <=? 2 ^ 30))
                shiftOrbit = true) by (vm_compute; reflexivity).
  rewrite forallb_forall in H. intros Hin. specialize (H p Hin).
  apply andb_prop in H. destruct H as [Hex Hle].
  apply existsb_exists in Hex. destruct Hex as (q & Hq & Heq).
  apply Z.eqb_eq in Heq. rewrite Heq. split; [exact Hq | now apply Z.leb_le].
Qed.

(** X5: for a length above 2^30 the loop of [nextPow2] never exits,
    whatever the number of iterations allowed: [p] wraps to -2^31 and
    then stays 0. *)
Theorem nextPow2_never_exits (n : Z) :
  2 ^ 30 < n -> forall steps, nextPow2_loop steps 1 n = None.
Proof.
  intros Hn steps.
  assert (H : forall p, In p shiftOrbit -> nextPow2_loop steps p n = None).
  { induction steps as [|steps IH]; intros p Hp; [reflexivity|].
    cbn [nextPow2_loop]. destruct (shiftOrbit_closed p Hp) as [Hnext Hle].
    destruct (p <? Z.max 2 n) eqn:E; [now apply IH|].
    apply Z.ltb_ge in E. lia. }
  apply H. now left.
Qed.

(** [nextPow2_never_exits] at 2^30 + 1 samples. *)
Lemma nextPow2_never_exits_witness :
  2 ^ 30 < 2 ^ 30 + 1
  /\ forall steps, nextPow2_loop steps 1 (2 ^ 30 + 1) = None.
Proof.
  assert (H : 2 ^ 30 < 2 ^ 30 + 1) by lia.
  split; [exact H | exact (nextPow2_never_exits (2 ^ 30 + 1) H)].
Defined.

#[local] Close Scope Z_scope.

(** ** More on binary64 comparisons and NaN *)

Module FloatFacts.

Lemma SFltb_not_leb a b : SFltb a b = true -> SFleb b a = false.
Proof.
  unfold SFleb, SFltb, SFcompare.
  destruct a as [sa|sa| |sa ma ea], b as [sb|sb| |sb mb eb];
    try destruct sa; try destruct sb; simpl; try congruence;
    rewrite (Z.compare_antisym ea eb);
    destruct (Z.compare ea eb); simpl; try congruence;
    change (Pos.compare_cont Eq mb ma) with (Pos.compare mb ma);
    change (Pos.compare_cont Eq ma mb) with (Pos.compare ma mb);
    rewrite (Pos.compare_antisym ma mb); destruct (Pos.compare ma mb); simpl; congruence.
Qed.

Lemma SFleb_ltb_trans a b c :
  SFleb a b = true -> SFltb b c = true -> SFltb a c = true.
Proof.
  unfold SFleb, SFltb, SFcompare.
  destruct a as [sa|sa| |sa ma ea], b as [sb|sb| |sb mb eb], c as [sc|sc| |sc mc ec];
    try destruct sa; try destruct sb; try destruct sc; simpl; try congruence;
    repeat match goal with
    | |- context [Z.compare ?x ?y] =>
        destruct (Z.compare_spec x y); subst; simpl; try congruence; try lia
    end;
    repeat match goal with
    | |- context [Pos.compare_cont Eq ?x ?y] =>
        change (Pos.compare_cont Eq x y) with (Pos.compare x y);
        destruct (Pos.compare_spec x y); subst; simpl; try congruence; try lia
    end.
Qed.

Lemma ltb_not_leb x y : (x <? y) = true -> (y <=? x) = false.
Proof.
  rewrite FloatAxioms.ltb_spec, FloatAxioms.leb_spec. apply SFltb_not_leb.
Qed.

Lemma lef_ltb_trans x y z : lef x y -> (y <? z) = true -> (x <? z) = true.
Proof.
  unfold lef. rewrite !FloatAxioms.ltb_spec, FloatAxioms.leb_spec.
  apply SFleb_ltb_trans.
Qed.

Lemma is_nan_Prim2SF x : is_nan x = true <-> Prim2SF x = S754_nan.
Proof.
  split.
  - intros H. destruct (Prim2SF x) eqn:E; try reflexivity; exfalso;
      assert (Hn : notNaN x) by (apply FloatOrder.notNaN_spec; rewrite E; discriminate);
      unfold notNaN in Hn; congruence.
  - intros H. destruct (is_nan x) eqn:E; [reflexivity|].
    apply FloatOrder.notNaN_spec in E. contradiction.
Qed.

(** There is one NaN. *)
Lemma is_nan_eq x : is_nan x = true -> x = nan.
Proof.
  intros H%is_nan_Prim2SF. apply Prim2SF_inj. rewrite H. reflexivity.
Qed.

End FloatFacts.

(** ** The power spectrum *)

Lemma transformSize_spec (n : nat) :
  (2 <= n)%nat -> (Z.of_nat n <= 2 ^ 30)%Z ->
  exists k, (1 <= k <= 30)%Z
    /\ transformSize n = Some (2 ^ k)%Z
    /\ (Z.of_nat n <= 2 ^ k < 2 * Z.of_nat n)%Z.
Proof.
  intros Hn Hmax. unfold transformSize.
  destruct (isPowerOfTwo (Z.of_nat n)) eqn:E.
  - unfold isPowerOfTwo in E. apply andb_prop in E. destruct E as [_ Hland].
    apply Z.eqb_eq in Hland. rewrite !toInt32_small in Hland by lia.
    apply land_pred_zero in Hland; [|lia].
    assert (Hk : (0 <= Z.log2 (Z.of_nat n))%Z) by apply Z.log2_nonneg.
    assert (Hk30 : (Z.log2 (Z.of_nat n) < 31)%Z) by (apply Z.log2_lt_pow2; lia).
    exists (Z.log2 (Z.of_nat n)). rewrite <- Hland.
    split; [|split; [reflexivity | lia]].
    destruct (Z.eq_dec (Z.log2 (Z.of_nat n)) 0) as [E0|E0]; [|lia].
    rewrite E0 in Hland. simpl in Hland. lia.
  - unfold nextPow2.
    destruct (nextPow2_loop_spec (Z.of_nat n) Hmax 40 0%Z)
      as (k & Hk & Hres & Hge & Hsmall); [lia | simpl; lia | now left|].
    change (2 ^ 0)%Z with 1%Z in Hres. rewrite Z.max_r in * by lia.
    assert (Hk1 : (1 <= k)%Z).
    { destruct (Z.eq_dec k 0) as [->|]; [simpl in Hge; lia | lia]. }
    assert (Hpow : (2 ^ k = 2 * 2 ^ (k - 1))%Z).
    { rewrite <- Z.pow_succ_r by lia. f_equal. lia. }
    exists k. repeat split; try assumption; lia.
Qed.

Lemma finitePositive_guard fs :
  finitePositive fs = true -> negb (isFiniteNum fs) || (fs <=? 0) = false.
Proof.
  unfold finitePositive. intros [Hfin Hpos]%andb_prop.
  rewrite Hfin, (FloatFacts.ltb_not_leb _ _ Hpos). reflexivity.
Qed.

Section SpectrumFacts.

Variable fftSpectrum : nat -> list float -> list float.

(** X6: with a finite positive sampling rate and between 2 and 2^30
    finite samples, [rfftPower] returns a spectrum; the transform size
    [N] is a power of two with [n <= N < 2 n] (so the FFT constructor
    accepts it and fewer than [n] zeros are padded), and [freqs] and
    [power] both have [N / 2 + 1] bins. *)
Theorem rfftPower_shape (x : list float) (fs : float) :
  finitePositive fs = true ->
  (2 <= countFinite x)%nat ->
  (Z.of_nat (countFinite x) <= 2 ^ 30)%Z ->
  exists sp k,
    rfftPower fftSpectrum x fs = Some sp
    /\ (1 <= k <= 30)%Z
    /\ transformSize (countFinite x) = Some (2 ^ k)%Z
    /\ (Z.of_nat (countFinite x) <= 2 ^ k < 2 * Z.of_nat (countFinite x))%Z
    /\ length (Spectrum.freqs sp) = (Z.to_nat (2 ^ k) / 2 + 1)%nat
    /\ length (Spectrum.power sp) = (Z.to_nat (2 ^ k) / 2 + 1)%nat.
Proof.
  intros Hfs Hn Hmax.
  destruct (transformSize_spec _ Hn Hmax) as (k & Hk & Hsize & Hbounds).
  unfold rfftPower. rewrite (finitePositive_guard fs Hfs).
  fold (countFinite x).
  destruct (countFinite x <? 2)%nat eqn:E; [apply Nat.ltb_lt in E; lia|].
  unfold transformSize in Hsize. rewrite Hsize.
  eexists. exists k. split; [reflexivity|].
  cbn [Spectrum.freqs Spectrum.power]. rewrite !length_map, !length_seq.
  repeat split; try assumption; lia.
Qed.

End SpectrumFacts.

(** [rfftPower_shape] at nine finite samples, padded to 16. *)
Lemma rfftPower_shape_witness :
  countFinite nineSamples = 9%nat
  /\ forall fft, exists sp k,
       rfftPower fft nineSamples 10 = Some sp
       /\ (1 <= k <= 30)%Z
       /\ transformSize (countFinite nineSamples) = Some (2 ^ k)%Z
       /\ (Z.of_nat (countFinite nineSamples) <= 2 ^ k
           < 2 * Z.of_nat (countFinite nineSamples))%Z
       /\ length (Spectrum.freqs sp) = (Z.to_nat (2 ^ k) / 2 + 1)%nat
       /\ length (Spectrum.power sp) = (Z.to_nat (2 ^ k) / 2 + 1)%nat.
Proof.
  split; [reflexivity|].
  intros fft. apply (rfftPower_shape fft nineSamples 10).
  - reflexivity.
  - vm_compute. lia.
  - vm_compute. discriminate.
Defined.

(** ** The dominant bin *)

Lemma argmax_loop (power : list float) :
  Forall notNaN power ->
  forall m s idx0,
    (s + m <= length power)%nat -> (idx0 < s)%nat ->
    (forall i, (i < s)%nat -> lef (get power i) (get power idx0)) ->
    (forall i, (i < idx0)%nat -> (get power i <? get power idx0) = true) ->
    let idx := fold_left (fun idx i => if get power idx <? get power i then i else idx)
                 (seq s m) idx0 in
    (idx < s + m)%nat
    /\ (forall i, (i < s + m)%nat -> lef (get power i) (get power idx))
    /\ (forall i, (i < idx)%nat -> (get power i <? get power idx) = true).
Proof.
  intros Hnn. induction m as [|m IH]; intros s idx0 Hlen Hidx Hmax Hfirst.
  - simpl. rewrite Nat.add_0_r. auto.
  - cbn [seq fold_left].
    assert (HnnAt : forall i, (i < length power)%nat -> notNaN (get power i)).
    { intros i Hi. rewrite Forall_forall in Hnn. apply Hnn. now apply get_In. }
    replace (s + S m)%nat with (S s + m)%nat by lia.
    destruct (get power idx0 <? get power s) eqn:E.
    + apply IH; [lia | lia | |].
      * intros i Hi. destruct (Nat.eq_dec i s) as [->|Hneq].
        -- apply lef_refl. apply HnnAt. lia.
        -- apply (lef_trans _ (get power idx0)); [apply Hmax; lia|].
           now apply ltb_lef.
      * intros i Hi. apply (FloatFacts.lef_ltb_trans _ (get power idx0)); [|exact E].
        apply Hmax. lia.
    + apply IH; [lia | lia | | exact Hfirst].
      intros i Hi. destruct (Nat.eq_dec i s) as [->|Hneq]; [|apply Hmax; lia].
      apply not_ltb_lef; [apply HnnAt; lia | apply HnnAt; lia | exact E].
Qed.

Lemma dominantIndex_spec (power : list float) :
  power <> [] -> Forall notNaN power ->
  (dominantIndex power < length power)%nat
  /\ (forall i, (i < length power)%nat ->
        lef (get power i) (get power (dominantIndex power)))
  /\ (forall i, (i < dominantIndex power)%nat ->
        (get power i <? get power (dominantIndex power)) = true).
Proof.
  intros Hne Hnn. unfold dominantIndex.
  destruct power as [|p0 rest]; [congruence|].
  pose proof (argmax_loop (p0 :: rest) Hnn (length (p0 :: rest) - 1) 1 0) as H.
  replace (1 + (length (p0 :: rest) - 1))%nat with (length (p0 :: rest)) in H
    by (simpl; lia).
  apply H; [lia | lia | | intros; lia].
  intros i Hi. replace i with 0%nat by lia. apply lef_refl.
  rewrite Forall_forall in Hnn. apply Hnn. now left.
Qed.

Section DominantFacts.

Variable Math_log2 : float -> float.
Variable fftSpectrum : nat -> list float -> list float.

Lemma rfftPower_lengths x fs sp :
  rfftPower fftSpectrum x fs = Some sp ->
  length (Spectrum.freqs sp) = length (Spectrum.power sp).
Proof.
  unfold rfftPower.
  destruct (negb (isFiniteNum fs) || (fs <=? 0)); [now intros [= <-]|].
  destruct (length (filter isFiniteNum x) <? 2)%nat; [now intros [= <-]|].
  destruct (if isPowerOfTwo _ then _ else _); [|discriminate].
  intros [= <-]. cbn [Spectrum.freqs Spectrum.power].
  now rewrite !length_map.
Qed.

(** X7: when [spectralFeatures] has a spectrum of numbers to work on,
    its dominant frequency and power are those of a bin whose power no
    other bin exceeds, and of the first such bin: every earlier bin has
    strictly less power. *)
Theorem spectralFeatures_dominant_bin (x : list float) (fs : float)
    (sp : Spectrum.t) :
  isFiniteNum fs = true -> (8 <= length x)%nat ->
  rfftPower fftSpectrum x fs = Some sp ->
  Spectrum.freqs sp <> [] ->
  Forall notNaN (Spectrum.power sp) ->
  exists v idx,
    spectralFeatures Math_log2 fftSpectrum x fs = Some v
    /\ (idx < length (Spectrum.power sp))%nat
    /\ Spectral.f1 v = get (Spectrum.freqs sp) idx
    /\ Spectral.f1_power v = get (Spectrum.power sp) idx
    /\ (forall i, (i < length (Spectrum.power sp))%nat ->
          lef (get (Spectrum.power sp) i) (get (Spectrum.power sp) idx))
    /\ (forall i, (i < idx)%nat ->
          (get (Spectrum.power sp) i <? get (Spectrum.power sp) idx) = true).
Proof.
  intros Hfs Hlen Hsp Hne Hnn.
  assert (Hpne : Spectrum.power sp <> []).
  { pose proof (rfftPower_lengths _ _ _ Hsp) as Hl.
    destruct (Spectrum.power sp); [|discriminate].
    destruct (Spectrum.freqs sp); [congruence | discriminate]. }
  destruct (dominantIndex_spec _ Hpne Hnn) as (Hidx & Hmax & Hfirst).
  unfold spectralFeatures. rewrite Hfs.
  destruct (length x <? 8)%nat eqn:E; [apply Nat.ltb_lt in E; lia|].
  cbn [negb orb]. rewrite Hsp.
  destruct (length (Spectrum.freqs sp) =? 0)%nat eqn:E0.
  { apply Nat.eqb_eq in E0. destruct (Spectrum.freqs sp); [congruence | discriminate]. }
  eexists. exists (dominantIndex (Spectrum.power sp)).
  split; [reflexivity|]. cbn [Spectral.f1 Spectral.f1_power].
  repeat split; assumption.
Qed.

End DominantFacts.

(** Eight samples with one clear peak. *)
Lemma spectralFeatures_dominant_bin_witness :
  exists sp v idx,
    rfftPower exampleTransform [0; 1; 5; 2; 0; 1; 0; 1] 8 = Some sp
    /\ spectralFeatures (fun p => p) exampleTransform [0; 1; 5; 2; 0; 1; 0; 1] 8 = Some v
    /\ (idx < length (Spectrum.power sp))%nat
    /\ Spectral.f1 v = get (Spectrum.freqs sp) idx
    /\ Spectral.f1_power v = get (Spectrum.power sp) idx
    /\ (forall i, (i < length (Spectrum.power sp))%nat ->
          lef (get (Spectrum.power sp) i) (get (Spectrum.power sp) idx))
    /\ (forall i, (i < idx)%nat ->
          (get (Spectrum.power sp) i <? get (Spectrum.power sp) idx) = true).
Proof.
  destruct (rfftPower exampleTransform [0; 1; 5; 2; 0; 1; 0; 1] 8) as [sp|] eqn:Hsp;
    [|vm_compute in Hsp; discriminate].
  assert (Hne : Spectrum.freqs sp <> []).
  { vm_compute in Hsp. injection Hsp as <-. discriminate. }
  assert (Hnn : Forall notNaN (Spectrum.power sp)).
  { vm_compute in Hsp. injection Hsp as <-. repeat constructor. }
  destruct (spectralFeatures_dominant_bin (fun p => p) exampleTransform
              [0; 1; 5; 2; 0; 1; 0; 1] 8 sp) as (v & idx & H);
    [reflexivity | simpl; lia | exact Hsp | exact Hne | exact Hnn|].
  exists sp, v, idx. split; [reflexivity | exact H].
Defined.

(** ** Feature vectors that always come back *)



Section ReturnFacts.

Variable Math_pow : float -> float -> float.
Variable Math_log2 : float -> float.
Variable fftSpectrum : nat -> list float -> list float.






End ReturnFacts.



(** ** The window indices of a caption list *)

Lemma StronglySorted_map_lt {A} (f : A -> nat) (l : list A) :
  StronglySorted (fun a b => (f a < f b)%nat) l -> StronglySorted lt (map f l).
Proof.
  induction 1 as [|a l Hs IH Hall]; simpl; constructor; [exact IH|].
  apply Forall_map. exact Hall.
Qed.

Lemma StronglySorted_filter {A} (R : A -> A -> Prop) (p : A -> bool) (l : list A) :
  StronglySorted R l -> StronglySorted R (filter p l).
Proof.
  induction 1 as [|a l Hs IH Hall]; simpl; [constructor|].
  destruct (p a); [|exact IH]. constructor; [exact IH|].
  rewrite Forall_forall in *. intros x Hx. apply Hall.
  apply filter_In in Hx. tauto.
Qed.

Lemma scanWindows_positions time T1 winSec hopSec fuel : forall start k ws,
  scanWindows fuel time T1 winSec hopSec start k = Some ws ->
  Forall (fun w => (k <= Window.k w)%nat) ws
  /\ StronglySorted (fun a b => (Window.k a < Window.k b)%nat) ws.
Proof.
  induction fuel as [|fuel IH]; intros start k ws; simpl; [discriminate|].
  destruct (start <=? T1 - 1e-9).
  - destruct (scanWindows _ _ _ _ _ _ _) as [ws'|] eqn:Hrec; [|discriminate].
    intros [= <-]. destruct (IH _ _ _ Hrec) as [Hge Hsorted]. split.
    + constructor; [simpl; lia|].
      eapply Forall_impl; [|exact Hge]. simpl. intros; lia.
    + constructor; [exact Hsorted|].
      eapply Forall_impl; [|exact Hge]. simpl. intros; lia.
  - intros [= <-]. split; constructor.
Qed.

Lemma scanWindows_agree time T1 winSec hopSec start k fuel1 fuel2 ws1 ws2 :
  scanWindows fuel1 time T1 winSec hopSec start k = Some ws1 ->
  scanWindows fuel2 time T1 winSec hopSec start k = Some ws2 ->
  ws1 = ws2.
Proof.
  intros H1 H2.
  apply (scanWindows_more_fuel _ _ _ _ fuel2) in H1.
  apply (scanWindows_more_fuel _ _ _ _ fuel1) in H2.
  rewrite (Nat.add_comm fuel2 fuel1) in H2. congruence.
Qed.

Section IndexFacts.

Variable Math_pow : float -> float -> float.

Lemma captionsOf_indices time y winSec ws :
  captionIndices (captionsOf Math_pow time y winSec ws) = emittedIndices ws.
Proof.
  unfold captionIndices, emittedIndices, captionsOf.
  induction ws as [|w ws IH]; [reflexivity|].
  cbn [flat_map filter]. rewrite map_app, IH. unfold captionOf.
  destruct (length (Window.idx w) <? 2)%nat; reflexivity.
Qed.

(** The captions of a time sequence are those of its scanned windows. *)
Lemma slidingWindowCaptions_scanned fuel time y winSec hopSec caps :
  slidingWindowCaptions Math_pow fuel (Some time) y winSec hopSec = Some caps ->
  ((length time < 2)%nat /\ caps = [])
  \/ ((2 <= length time)%nat
      /\ exists ws, scannedWindows fuel time winSec hopSec = Some ws
                    /\ caps = captionsOf Math_pow time y winSec ws).
Proof.
  unfold slidingWindowCaptions, scannedWindows.
  destruct (length time <? 2)%nat eqn:E.
  - intros [= <-]. left. apply Nat.ltb_lt in E. auto.
  - apply Nat.ltb_ge in E. rewrite captionLoop_scanWindows.
    destruct (scanWindows _ _ _ _ _ _ _) as [ws|]; [|discriminate].
    intros [= <-]. right. eauto.
Qed.

(** X10: the window indices of the captions returned by
    [slidingWindowCaptions] are strictly increasing (skipped windows
    leave gaps, no index repeats). *)
Theorem slidingWindowCaptions_indices_increase (fuel : nat)
    (time : option (list float)) (y : list float) (winSec hopSec : float)
    (caps : list Caption.t) :
  slidingWindowCaptions Math_pow fuel time y winSec hopSec = Some caps ->
  StronglySorted lt (captionIndices caps).
Proof.
  destruct time as [time|]; [|intros [= <-]; constructor].
  intros H. apply slidingWindowCaptions_scanned in H.
  destruct H as [[_ ->]|(_ & ws & Hscan & ->)]; [constructor|].
  rewrite captionsOf_indices. unfold emittedIndices.
  apply StronglySorted_map_lt, StronglySorted_filter.
  unfold scannedWindows in Hscan.
  now apply scanWindows_positions in Hscan.
Qed.

End IndexFacts.

(** X11: which windows get a caption depends on the time sequence, the
    window and the hop only: two runs of [slidingWindowCaptions] that
    return, on any two value series, return the same window indices. *)
Theorem slidingWindowCaptions_indices_same_for_all_series
    (pow1 pow2 : float -> float -> float) (fuel1 fuel2 : nat)
    (time : option (list float)) (y1 y2 : list float) (winSec hopSec : float)
    (caps1 caps2 : list Caption.t) :
  slidingWindowCaptions pow1 fuel1 time y1 winSec hopSec = Some caps1 ->
  slidingWindowCaptions pow2 fuel2 time y2 winSec hopSec = Some caps2 ->
  captionIndices caps1 = captionIndices caps2.
Proof.
  destruct time as [time|]; [|intros [= <-] [= <-]; reflexivity].
  intros H1 H2.
  apply slidingWindowCaptions_scanned in H1, H2.
  destruct H1 as [[Hlt ->]|(Hge & ws1 & Hscan1 & ->)];
    destruct H2 as [[Hlt' ->]|(Hge' & ws2 & Hscan2 & ->)];
    try reflexivity; try lia.
  rewrite !captionsOf_indices. f_equal. f_equal.
  unfold scannedWindows in *. eapply scanWindows_agree; eassumption.
Qed.

(** [slidingWindowCaptions_indices_increase] on the half-second grid. *)
Lemma slidingWindowCaptions_indices_increase_witness :
  exists caps,
    slidingWindowCaptions squarePow 10 (Some halfSecondGrid) fiveValues 1 0.5 = Some caps
    /\ captionIndices caps = [0; 1; 2; 3]%nat
    /\ StronglySorted lt (captionIndices caps).
Proof.
  eexists. split; [vm_compute; reflexivity|]. split; [reflexivity|].
  apply (slidingWindowCaptions_indices_increase squarePow 10 (Some halfSecondGrid)
           fiveValues 1 0.5).
  vm_compute. reflexivity.
Defined.

(** [slidingWindowCaptions_indices_same_for_all_series] on the
    half-second grid, for a rising and a flat series. *)
Lemma slidingWindowCaptions_indices_same_for_all_series_witness :
  exists caps1 caps2,
    slidingWindowCaptions squarePow 10 (Some halfSecondGrid) fiveTimes 1 0.5 = Some caps1
    /\ slidingWindowCaptions squarePow 20 (Some halfSecondGrid) (repeat 1 5) 1 0.5
       = Some caps2
    /\ captionIndices caps1 = captionIndices caps2.
Proof.
  eexists. eexists. split; [vm_compute; reflexivity|].
  split; [vm_compute; reflexivity|].
  apply (slidingWindowCaptions_indices_same_for_all_series squarePow squarePow 10 20
           (Some halfSecondGrid) fiveTimes (repeat 1 5) 1 0.5);
    vm_compute; reflexivity.
Defined.

(** ** The labels of the merged table *)

Lemma labelAt_widen key key' r row :
  labelAt key (widen key' r row)
  = if channelEqb key key' then Some (ChannelRow.label r) else labelAt key row.
Proof. destruct row, key, key'; reflexivity. Qed.

Lemma upsert_findRow key r M k :
  findRow k (upsert key r M)
  = if (ChannelRow.window_index r =? k)%nat
    then Some (widen key r (match findRow k M with
                            | Some R => R
                            | None => seedRow r
                            end))
    else findRow k M.
Proof.
  unfold findRow. induction M as [|row M IH]; cbn [upsert find].
  - rewrite widen_index. cbn [seedRow StructuralRow.window_index].
    destruct (ChannelRow.window_index r =? k)%nat; reflexivity.
  - destruct (StructuralRow.window_index row =? ChannelRow.window_index r)%nat eqn:E.
    + apply Nat.eqb_eq in E. cbn [find]. rewrite widen_index, E.
      destruct (ChannelRow.window_index r =? k)%nat; reflexivity.
    + cbn [find]. destruct (StructuralRow.window_index row =? k)%nat eqn:Ek.
      * apply Nat.eqb_eq in Ek. apply Nat.eqb_neq in E.
        destruct (ChannelRow.window_index r =? k)%nat eqn:Er; [|reflexivity].
        apply Nat.eqb_eq in Er. congruence.
      * exact IH.
Qed.

Lemma upsert_labelOf key key' r M k :
  labelOf key' k (upsert key r M)
  = if (ChannelRow.window_index r =? k)%nat && channelEqb key' key
    then Some (ChannelRow.label r) else labelOf key' k M.
Proof.
  unfold labelOf. rewrite upsert_findRow.
  destruct (ChannelRow.window_index r =? k)%nat; [|reflexivity].
  rewrite labelAt_widen. cbn [andb].
  destruct (channelEqb key' key); [reflexivity|].
  destruct (findRow k M); [reflexivity|]. now destruct key'.
Qed.

Lemma lastLabel_from k rows : forall acc,
  fold_left
    (fun acc r => if (ChannelRow.window_index r =? k)%nat
                  then Some (ChannelRow.label r) else acc) rows acc
  = match lastLabel k rows with Some l => Some l | None => acc end.
Proof.
  induction rows as [|r rows IH]; intros acc; [reflexivity|].
  cbn [fold_left]. rewrite IH.
  assert (H : lastLabel k (r :: rows)
              = match lastLabel k rows with
                | Some l => Some l
                | None => if (ChannelRow.window_index r =? k)%nat
                          then Some (ChannelRow.label r) else None
                end).
  { unfold lastLabel at 1. cbn [fold_left]. apply IH. }
  rewrite H. destruct (lastLabel k rows); [reflexivity|].
  destruct (ChannelRow.window_index r =? k)%nat; reflexivity.
Qed.

Lemma merge_labelOf key key' rows k : forall M,
  labelOf key' k (merge rows key M)
  = if channelEqb key' key
    then match lastLabel k rows with
         | Some l => Some l
         | None => labelOf key' k M
         end
    else labelOf key' k M.
Proof.
  unfold merge. destruct (channelEqb key' key) eqn:Ekey.
  - induction rows as [|r rows IH]; intros M; cbn [fold_left]; [reflexivity|].
    rewrite IH, upsert_labelOf, Ekey, andb_true_r.
    unfold lastLabel at 2. cbn [fold_left]. rewrite lastLabel_from.
    destruct (lastLabel k rows); [reflexivity|].
    destruct (ChannelRow.window_index r =? k)%nat; reflexivity.
  - induction rows as [|r rows IH]; intros M; cbn [fold_left]; [reflexivity|].
    now rewrite IH, upsert_labelOf, Ekey, andb_false_r.
Qed.

Lemma lastLabel_None_iff k rows :
  lastLabel k rows = None <-> ~ In k (map ChannelRow.window_index rows).
Proof.
  induction rows as [|r rows IH] using rev_ind; [simpl; tauto|].
  unfold lastLabel. rewrite fold_left_app, map_app, in_app_iff. cbn [fold_left map In].
  fold (lastLabel k rows).
  destruct (ChannelRow.window_index r =? k)%nat eqn:E.
  - apply Nat.eqb_eq in E. split; [discriminate | intros H; exfalso; apply H; auto].
  - apply Nat.eqb_neq in E. rewrite IH. tauto.
Qed.

Lemma upsert_NoDup key r M : NoDup (keysOf M) -> NoDup (keysOf (upsert key r M)).
Proof.
  intros Hnd. rewrite upsert_keys.
  destruct (existsb _ (keysOf M)) eqn:Hex; [exact Hnd|].
  apply NoDup_app; [exact Hnd | repeat constructor; tauto|].
  intros a Ha [<-|[]]. apply existsb_eqb_In in Ha. congruence.
Qed.

Lemma merge_NoDup key rows : forall M,
  NoDup (keysOf M) -> NoDup (keysOf (merge rows key M)).
Proof.
  unfold merge. induction rows as [|r rows IH]; intros M Hnd; [exact Hnd|].
  cbn [fold_left]. apply IH. now apply upsert_NoDup.
Qed.

Lemma findRow_NoDup M R :
  NoDup (keysOf M) -> In R M -> findRow (StructuralRow.window_index R) M = Some R.
Proof.
  unfold findRow. induction M as [|x M IH]; intros Hnd Hin; [destruct Hin|].
  inversion Hnd as [|? ? Hnot Hnd']; subst. cbn [find].
  destruct Hin as [->|Hin]; [now rewrite Nat.eqb_refl|].
  destruct (StructuralRow.window_index x =? StructuralRow.window_index R)%nat eqn:E.
  - apply Nat.eqb_eq in E. exfalso. apply Hnot. rewrite E.
    exact (in_map StructuralRow.window_index M R Hin).
  - now apply IH.
Qed.

Lemma mergeAll_labelAt key t1r t2r t1d t2d R :
  In R (mergeAll t1r t2r t1d t2d) ->
  labelAt key R
  = lastLabel (StructuralRow.window_index R) (channelRows key t1r t2r t1d t2d).
Proof.
  unfold mergeAll. intros Hin. apply (proj1 (sortRows_In _ _)) in Hin.
  set (M := merge t2d tag2_detrend _) in *.
  assert (Hnd : NoDup (keysOf M)).
  { subst M. repeat apply merge_NoDup. constructor. }
  pose proof (findRow_NoDup M R Hnd Hin) as Hfind.
  assert (Hlab : labelOf key (StructuralRow.window_index R) M = labelAt key R).
  { unfold labelOf. now rewrite Hfind. }
  rewrite <- Hlab. subst M. rewrite !merge_labelOf.
  destruct key; cbn [channelEqb channelRows];
    repeat match goal with
    | |- context [lastLabel ?k ?rows] => destruct (lastLabel k rows); try reflexivity
    end.
Qed.

(** X12: in the merged table a row's label for a channel is set exactly
    when that channel produced a caption row with the row's index, and
    it is then the label of the channel's last such row; a channel that
    never produced the index leaves the field unset. *)
Theorem mergeAll_labels (t1r t2r t1d t2d : list ChannelRow.t) :
  Forall
    (fun R =>
       let k := StructuralRow.window_index R in
       StructuralRow.tag1_residual_label R = lastLabel k t1r
       /\ StructuralRow.tag2_residual_label R = lastLabel k t2r
       /\ StructuralRow.tag1_detrend_label R = lastLabel k t1d
       /\ StructuralRow.tag2_detrend_label R = lastLabel k t2d)
    (mergeAll t1r t2r t1d t2d)
  /\ forall k rows,
       lastLabel k rows = None <-> ~ In k (map ChannelRow.window_index rows).
Proof.
  split; [|exact lastLabel_None_iff].
  apply Forall_forall. intros R HR.
  pose proof (mergeAll_labelAt tag1_residual _ _ _ _ R HR) as H1.
  pose proof (mergeAll_labelAt tag2_residual _ _ _ _ R HR) as H2.
  pose proof (mergeAll_labelAt tag1_detrend _ _ _ _ R HR) as H3.
  pose proof (mergeAll_labelAt tag2_detrend _ _ _ _ R HR) as H4.
  cbn [labelAt channelRows] in *. auto.
Qed.

(** ** The sheet of a recording: one fully labelled row per captioned window *)

Lemma StronglySorted_lt_NoDup l : StronglySorted lt l -> NoDup l.
Proof.
  induction 1 as [|a l Hs IH Hall]; constructor; [|exact IH].
  intros Hin. rewrite Forall_forall in Hall. specialize (Hall a Hin). lia.
Qed.

Lemma StronglySorted_map_inv {A} (f : A -> nat) (l : list A) :
  StronglySorted lt (map f l) -> StronglySorted (fun a b => (f a < f b)%nat) l.
Proof.
  induction l as [|a l IH]; intros H; [constructor|].
  simpl in H. inversion H as [|? ? Hs Hall]; subst.
  constructor; [now apply IH | exact (proj1 (Forall_map _ _ _) Hall)].
Qed.

Lemma sortRows_sorted_id M : StronglySorted indexBelow M -> sortRows M = M.
Proof.
  induction 1 as [|x M Hs IH Hall]; [reflexivity|].
  cbn [sortRows fold_right]. fold (sortRows M). rewrite IH.
  destruct M as [|y M]; [reflexivity|]. cbn [insertRow].
  inversion Hall as [|? ? Hxy _]; subst. unfold indexBelow in Hxy.
  destruct (StructuralRow.window_index y <? StructuralRow.window_index x)%nat eqn:E;
    [apply Nat.ltb_lt in E; lia | reflexivity].
Qed.

Lemma merge_new_keys key rows : forall M,
  NoDup (keysOf M ++ map ChannelRow.window_index rows) ->
  keysOf (merge rows key M) = keysOf M ++ map ChannelRow.window_index rows.
Proof.
  unfold merge. induction rows as [|r rows IH]; intros M Hnd; cbn [fold_left map].
  - now rewrite app_nil_r.
  - cbn [map] in Hnd.
    assert (Hnot : existsb (Nat.eqb (ChannelRow.window_index r)) (keysOf M) = false).
    { destruct (existsb _ _) eqn:E; [|reflexivity].
      apply existsb_eqb_In in E. apply NoDup_remove_2 in Hnd.
      exfalso. apply Hnd. apply in_or_app. now left. }
    rewrite IH; rewrite upsert_keys, Hnot, <- app_assoc; [reflexivity|exact Hnd].
Qed.

Lemma merge_present_keys key rows : forall M,
  (forall r, In r rows -> In (ChannelRow.window_index r) (keysOf M)) ->
  keysOf (merge rows key M) = keysOf M.
Proof.
  unfold merge. induction rows as [|r rows IH]; intros M Hin; cbn [fold_left];
    [reflexivity|].
  assert (Hex : existsb (Nat.eqb (ChannelRow.window_index r)) (keysOf M) = true).
  { apply existsb_eqb_In. apply Hin. now left. }
  assert (Hk : keysOf (upsert key r M) = keysOf M) by now rewrite upsert_keys, Hex.
  rewrite IH; [exact Hk|]. intros r' Hr'. rewrite Hk. apply Hin. now right.
Qed.

Section SheetFacts.

Variable Math_pow : float -> float -> float.

Lemma captionIndices_sorted fuel time y winSec hopSec caps :
  slidingWindowCaptions Math_pow fuel (Some time) y winSec hopSec = Some caps ->
  StronglySorted lt (captionIndices caps).
Proof.
  intros H. apply slidingWindowCaptions_scanned in H.
  destruct H as [[_ ->]|(_ & ws & Hscan & ->)]; [constructor|].
  rewrite captionsOf_indices. unfold emittedIndices, scannedWindows in *.
  apply scanWindows_positions in Hscan.
  apply StronglySorted_map_lt, StronglySorted_filter. tauto.
Qed.

Lemma captionIndices_same_scan fuel time y1 y2 winSec hopSec caps1 caps2 :
  slidingWindowCaptions Math_pow fuel (Some time) y1 winSec hopSec = Some caps1 ->
  slidingWindowCaptions Math_pow fuel (Some time) y2 winSec hopSec = Some caps2 ->
  captionIndices caps1 = captionIndices caps2.
Proof.
  intros H1 H2. apply slidingWindowCaptions_scanned in H1, H2.
  destruct H1 as [[Hlt ->]|(Hge & ws1 & Hscan1 & ->)];
    destruct H2 as [[Hlt' ->]|(Hge' & ws2 & Hscan2 & ->)];
    try reflexivity; try lia.
  rewrite !captionsOf_indices. congruence.
Qed.

Lemma makeRows_indices fuel time WIN HOP arr rows :
  makeRows (slidingWindowCaptions Math_pow fuel) time WIN HOP arr = Some rows ->
  exists caps,
    slidingWindowCaptions Math_pow fuel (Some time) arr WIN HOP = Some caps
    /\ map ChannelRow.window_index rows = captionIndices caps.
Proof.
  unfold makeRows.
  destruct (slidingWindowCaptions _ _ _ _ _ _) as [caps|]; [|discriminate].
  intros [= <-]. exists caps. split; [reflexivity|].
  unfold captionIndices. rewrite map_map. reflexivity.
Qed.

(** X13: all four channels of a recording are captioned over the same
    windows, so the table of [buildCombinedStructuralSheet] has exactly
    one row per captioned window, in scan order, and every row carries
    all four labels: no label of the sheet is ever left unset. *)
Theorem sheet_rows_fully_labelled (fuel : nat) (time : list float)
    (series : Series.t) (winSec hopSec : float) (rows : list StructuralRow.t) :
  buildCombinedStructuralSheet Math_pow fuel time series winSec hopSec = Some rows ->
  exists caps,
    slidingWindowCaptions Math_pow fuel (Some time)
      (Series.tag1_residual_rad series) winSec hopSec = Some caps
    /\ keysOf rows = captionIndices caps
    /\ Forall fullyLabelled rows.
Proof.
  unfold buildCombinedStructuralSheet, buildCombinedStructuralRows.
  destruct (makeRows _ time winSec hopSec (Series.tag1_residual_rad series))
    as [t1r|] eqn:H1; [|discriminate].
  destruct (makeRows _ time winSec hopSec (Series.tag2_residual_rad series))
    as [t2r|] eqn:H2; [|discriminate].
  destruct (makeRows _ time winSec hopSec (Series.tag1_detrend_rad series))
    as [t1d|] eqn:H3; [|discriminate].
  destruct (makeRows _ time winSec hopSec (Series.tag2_detrend_rad series))
    as [t2d|] eqn:H4; [|discriminate].
  intros [= <-].
  destruct (makeRows_indices _ _ _ _ _ _ H1) as (c1 & Hc1 & Hk1).
  destruct (makeRows_indices _ _ _ _ _ _ H2) as (c2 & Hc2 & Hk2).
  destruct (makeRows_indices _ _ _ _ _ _ H3) as (c3 & Hc3 & Hk3).
  destruct (makeRows_indices _ _ _ _ _ _ H4) as (c4 & Hc4 & Hk4).
  rewrite (captionIndices_same_scan _ _ _ _ _ _ _ _ Hc2 Hc1) in Hk2.
  rewrite (captionIndices_same_scan _ _ _ _ _ _ _ _ Hc3 Hc1) in Hk3.
  rewrite (captionIndices_same_scan _ _ _ _ _ _ _ _ Hc4 Hc1) in Hk4.
  pose proof (captionIndices_sorted _ _ _ _ _ _ Hc1) as Hsorted.
  set (ks := captionIndices c1) in *.
  assert (HM1 : keysOf (merge t1r tag1_residual []) = ks).
  { rewrite merge_new_keys; simpl; rewrite Hk1; [reflexivity|].
    now apply StronglySorted_lt_NoDup. }
  assert (Hpresent : forall rows', map ChannelRow.window_index rows' = ks ->
            forall M, keysOf M = ks ->
            forall r, In r rows' -> In (ChannelRow.window_index r) (keysOf M)).
  { intros rows' Hrows' M HM r Hr. rewrite HM, <- Hrows'.
    exact (in_map ChannelRow.window_index rows' r Hr). }
  assert (HM2 : keysOf (merge t2r tag2_residual (merge t1r tag1_residual [])) = ks).
  { rewrite merge_present_keys; [exact HM1|]. now apply Hpresent. }
  assert (HM3 : keysOf (merge t1d tag1_detrend
                          (merge t2r tag2_residual (merge t1r tag1_residual []))) = ks).
  { rewrite merge_present_keys; [exact HM2|]. now apply Hpresent. }
  assert (HM4 : keysOf (merge t2d tag2_detrend
                          (merge t1d tag1_detrend
                             (merge t2r tag2_residual (merge t1r tag1_residual []))))
                = ks).
  { rewrite merge_present_keys; [exact HM3|]. now apply Hpresent. }
  assert (Hrows : keysOf (mergeAll t1r t2r t1d t2d) = ks).
  { unfold mergeAll. rewrite sortRows_sorted_id; [exact HM4|].
    apply StronglySorted_map_inv. unfold keysOf in HM4. rewrite HM4. exact Hsorted. }
  exists c1. split; [exact Hc1|]. split; [exact Hrows|].
  apply Forall_forall. intros R HR.
  assert (HRk : In (StructuralRow.window_index R) ks).
  { rewrite <- Hrows. exact (in_map StructuralRow.window_index _ R HR). }
  assert (Hset : forall key rows', map ChannelRow.window_index rows' = ks ->
            channelRows key t1r t2r t1d t2d = rows' ->
            exists l, labelAt key R = Some l).
  { intros key rows' Hrows' Hch.
    rewrite (mergeAll_labelAt key t1r t2r t1d t2d R HR), Hch.
    destruct (lastLabel (StructuralRow.window_index R) rows') as [l|] eqn:El; [eauto|].
    apply lastLabel_None_iff in El. rewrite Hrows' in El. contradiction. }
  destruct (Hset tag1_residual t1r Hk1 eq_refl) as [l1 Hl1].
  destruct (Hset tag2_residual t2r Hk2 eq_refl) as [l2 Hl2].
  destruct (Hset tag1_detrend t1d Hk3 eq_refl) as [l3 Hl3].
  destruct (Hset tag2_detrend t2d Hk4 eq_refl) as [l4 Hl4].
  exists l1, l2, l3, l4. cbn [labelAt] in *. auto.
Qed.

End SheetFacts.

(** [sheet_rows_fully_labelled] on the half-second grid. *)
Lemma sheet_rows_fully_labelled_witness :
  exists rows caps,
    buildCombinedStructuralSheet squarePow 10 halfSecondGrid gridSeries 1 0.5 = Some rows
    /\ slidingWindowCaptions squarePow 10 (Some halfSecondGrid)
         (Series.tag1_residual_rad gridSeries) 1 0.5 = Some caps
    /\ keysOf rows = captionIndices caps
    /\ Forall fullyLabelled rows.
Proof.
  destruct (buildCombinedStructuralSheet squarePow 10 halfSecondGrid gridSeries 1 0.5)
    as [rows|] eqn:Hrows; [|vm_compute in Hrows; discriminate].
  destruct (sheet_rows_fully_labelled squarePow 10 halfSecondGrid gridSeries 1 0.5
              rows Hrows) as (caps & H).
  exists rows, caps. split; [reflexivity | exact H].
Defined.

(** ** A scan that does not return *)

Section StuckScan.

Variable Math_pow : float -> float -> float.

Lemma captionLoop_stuck time y T1 winSec hopSec start :
  start + hopSec = start -> (start <=? T1 - 1e-9) = true ->
  forall fuel k out,
    captionLoop Math_pow fuel time y T1 winSec hopSec start k out = None.
Proof.
  intros Hhop Hcond. induction fuel as [|fuel IH]; intros k out; [reflexivity|].
  cbn [captionLoop]. rewrite Hcond, Hhop.
  destruct (captionOf _ _ _ _ _ _); apply IH.
Qed.

(** X14: when adding the hop to the first time stamp does not change it
    (a hop of 0, or a hop too small for the magnitude of the time
    stamps) and the series spans more than 1e-9 s, the scan of
    [slidingWindowCaptions] never leaves its first window: it returns
    within no number of iterations. *)
Theorem slidingWindowCaptions_never_returns (time y : list float)
    (winSec hopSec : float) :
  (2 <= length time)%nat ->
  get time 0 + hopSec = get time 0 ->
  (get time 0 <=? get time (length time - 1) - 1e-9) = true ->
  forall fuel,
    slidingWindowCaptions Math_pow fuel (Some time) y winSec hopSec = None.
Proof.
  intros Hlen Hhop Hcond fuel. unfold slidingWindowCaptions.
  destruct (length time <? 2)%nat eqn:E; [apply Nat.ltb_lt in E; lia|].
  now apply captionLoop_stuck.
Qed.

End StuckScan.

(** [slidingWindowCaptions_never_returns] for a hop of 0 over one
    second, and for a hop of half a second at time stamps near 1e20. *)
Lemma slidingWindowCaptions_never_returns_witness :
  (forall pow y fuel, slidingWindowCaptions pow fuel (Some [0; 1]) y 1 0 = None)
  /\ (forall pow y fuel,
        slidingWindowCaptions pow fuel (Some [1e20; 2e20]) y 1 0.5 = None).
Proof.
  split; intros pow y fuel.
  - apply (slidingWindowCaptions_never_returns pow [0; 1] y 1 0);
      [simpl; lia | reflexivity | reflexivity].
  - apply (slidingWindowCaptions_never_returns pow [1e20; 2e20] y 1 0.5);
      [simpl; lia | reflexivity | reflexivity].
Defined.

(** ** Cleaning keeps what is already clean *)

Lemma repairFrom_increasing rest : forall prev,
  Sorted ltf (prev :: rest) -> repairFrom prev rest = rest.
Proof.
  induction rest as [|t rest IH]; intros prev Hs; [reflexivity|].
  inversion Hs as [|? ? Hs' Hhd]; subst. inversion Hhd as [|? ? Hlt]; subst.
  cbn [repairFrom]. unfold ltf in Hlt. rewrite Hlt. cbn [negb].
  f_equal. now apply IH.
Qed.

(** X15: the repair of the time column changes nothing in a sequence
    that is already strictly increasing. *)
Theorem enforceIncreasing_keeps_increasing (time : list float) :
  Sorted ltf time -> enforceIncreasing time = time.
Proof.
  destruct time as [|t0 rest]; intros Hs; [reflexivity|].
  rewrite enforceIncreasing_repairFrom. f_equal. now apply repairFrom_increasing.
Qed.

(** [enforceIncreasing_keeps_increasing] on the half-second grid. *)
Lemma enforceIncreasing_keeps_increasing_witness :
  Sorted ltf halfSecondGrid /\ enforceIncreasing halfSecondGrid = halfSecondGrid.
Proof.
  assert (H : Sorted ltf halfSecondGrid) by (repeat constructor).
  split; [exact H | exact (enforceIncreasing_keeps_increasing halfSecondGrid H)].
Defined.

Section OutcomeFacts.

Variable cell : Type.
Variable Number : cell -> float.

Lemma collectRows_columns raw :
  collectRows Number raw = columnsOf Number (filter (rowKept Number) raw).
Proof. unfold collectRows. rewrite pushRow_fold. apply appendColumns_empty_l. Qed.

(** X16: the columns stored for an accepted file are aligned: all five
    have the same length, at least 8; the four value columns hold only
    finite numbers, and they are the values of the kept rows, untouched
    by the repair of the time column. *)
Theorem cleanFile_aligned (raw : list (RawRow cell)) (c : Columns.t) :
  cleanFile Number raw = Some c ->
  let n := length (Columns.time c) in
  (8 <= n)%nat
  /\ length (Columns.tag1_residual_rad c) = n
  /\ length (Columns.tag2_residual_rad c) = n
  /\ length (Columns.tag1_detrend_rad c) = n
  /\ length (Columns.tag2_detrend_rad c) = n
  /\ Forall (fun v => isFiniteNum v = true)
       (Columns.tag1_residual_rad c ++ Columns.tag2_residual_rad c
        ++ Columns.tag1_detrend_rad c ++ Columns.tag2_detrend_rad c)
  /\ Columns.tag1_residual_rad c = Columns.tag1_residual_rad (collectRows Number raw)
  /\ Columns.tag2_residual_rad c = Columns.tag2_residual_rad (collectRows Number raw)
  /\ Columns.tag1_detrend_rad c = Columns.tag1_detrend_rad (collectRows Number raw)
  /\ Columns.tag2_detrend_rad c = Columns.tag2_detrend_rad (collectRows Number raw).
Proof.
  unfold cleanFile. rewrite collectRows_columns.
  set (kept := filter (rowKept Number) raw).
  cbn [Columns.time columnsOf]. rewrite length_map.
  destruct (length kept <? 8)%nat eqn:E; [discriminate|].
  apply Nat.ltb_ge in E. intros [= <-].
  cbn [Columns.time Columns.tag1_residual_rad Columns.tag2_residual_rad
       Columns.tag1_detrend_rad Columns.tag2_detrend_rad columnsOf].
  rewrite enforceIncreasing_length, !length_map.
  repeat (split; [first [exact E | reflexivity]|]).
  split; [|repeat split; reflexivity].
  assert (Hkept : forall r, In r kept -> rowKept Number r = true).
  { intros r Hr. unfold kept in Hr. apply filter_In in Hr. tauto. }
  repeat (apply Forall_app; split); apply Forall_map, Forall_forall;
    intros r Hr; apply Hkept, rowKept_all_finite in Hr; tauto.
Qed.

Lemma missingColumns_In cols s :
  In s (missingColumns cols) <-> In s requiredColumns /\ ~ In s cols.
Proof.
  unfold missingColumns. rewrite filter_In, negb_true_iff.
  split; intros [Hreq Hmiss]; (split; [exact Hreq|]).
  - intros Hin. assert (existsb (String.eqb s) cols = true); [|congruence].
    apply existsb_exists. exists s. split; [exact Hin | apply String.eqb_refl].
  - destruct (existsb (String.eqb s) cols) eqn:E; [|reflexivity].
    apply existsb_exists in E. destruct E as (x & Hx & Heq%String.eqb_eq).
    subst x. contradiction.
Qed.

(** X17: a file is stored exactly when its header has every required
    column and the cleaning accepts its rows, and the stored columns are
    the cleaned ones; a file that lacks a required column is reported
    with exactly its absent required columns, whatever its rows; a file
    reported for too few rows has all the columns and fewer than 8 rows
    with five finite values, the number reported. *)
Theorem parseFile_outcome (cols : list String.string) (raw : list (RawRow cell)) :
  (forall c, parseFile Number cols raw = Parsed c <->
     (forall s, In s requiredColumns -> In s cols) /\ cleanFile Number raw = Some c)
  /\ (forall m, parseFile Number cols raw = MissingColumns m ->
        m <> [] /\ forall s, In s m <-> In s requiredColumns /\ ~ In s cols)
  /\ (forall n, parseFile Number cols raw = TooFewRows n ->
        (forall s, In s requiredColumns -> In s cols)
        /\ (n < 8)%nat
        /\ n = length (filter (rowKept Number) raw)
        /\ cleanFile Number raw = None).
Proof.
  assert (Hall : missingColumns cols = [] <->
                 forall s, In s requiredColumns -> In s cols).
  { split.
    - intros Hnil s Hs.
      destruct (in_dec String.string_dec s cols) as [Hin|Hnot]; [exact Hin|].
      assert (In s (missingColumns cols)) by (apply missingColumns_In; tauto).
      rewrite Hnil in *. contradiction.
    - intros Hpresent. destruct (missingColumns cols) as [|s l] eqn:E; [reflexivity|].
      assert (Hs : In s (missingColumns cols)) by (rewrite E; now left).
      apply missingColumns_In in Hs. destruct Hs as [Hreq Hnot].
      exfalso. apply Hnot. now apply Hpresent. }
  unfold parseFile, cleanFile.
  destruct (missingColumns cols) as [|s0 m0] eqn:Emiss; cbn [length Nat.eqb negb].
  - assert (Hpresent : forall s, In s requiredColumns -> In s cols)
      by now apply Hall.
    rewrite collectRows_columns. cbn [Columns.time columnsOf]. rewrite length_map.
    destruct (length (filter (rowKept Number) raw) <? 8)%nat eqn:E.
    + split; [|split].
      * intros c. split; [discriminate | intros [_ H]; discriminate].
      * discriminate.
      * intros n [= <-]. apply Nat.ltb_lt in E. auto.
    + split; [|split]; [|discriminate|discriminate].
      intros c. split.
      * intros [= <-]. auto.
      * intros [_ [= <-]]. reflexivity.
  - split; [|split]; [| |discriminate].
    + intros c. split; [discriminate|].
      intros [Hpresent _]. apply Hall in Hpresent. discriminate.
    + intros m [= <-]. split; [discriminate|].
      intros s. rewrite <- Emiss. apply missingColumns_In.
Qed.

End OutcomeFacts.

(** [cleanFile_aligned] on the nine rows of which eight are kept. *)
Lemma cleanFile_aligned_witness :
  exists c,
    cleanFile (fun v => v) nineRows = Some c
    /\ length (Columns.time c) = 8%nat
    /\ length (Columns.tag1_residual_rad c) = length (Columns.time c)
    /\ Forall (fun v => isFiniteNum v = true)
         (Columns.tag1_residual_rad c ++ Columns.tag2_residual_rad c
          ++ Columns.tag1_detrend_rad c ++ Columns.tag2_detrend_rad c).
Proof.
  destruct (cleanFile (fun v => v) nineRows) as [c|] eqn:Hc;
    [|vm_compute in Hc; discriminate].
  pose proof (cleanFile_aligned float (fun v => v) nineRows c Hc) as H.
  cbv zeta in H. destruct H as (_ & H1 & _ & _ & _ & Hfin & _).
  exists c. split; [reflexivity|]. split; [|split; [exact H1 | exact Hfin]].
  vm_compute in Hc. injection Hc as <-. reflexivity.
Defined.

(** [parseFile_outcome] on a header without the two detrended columns,
    and on a full header with the nine rows. *)
Lemma parseFile_outcome_witness :
  parseFile (fun v => v)
    ["time_s"; "tag1_residual_rad"; "tag2_residual_rad"]%string nineRows
  = MissingColumns ["tag1_detrend_rad"; "tag2_detrend_rad"]%string
  /\ exists c,
       parseFile (fun v => v) ("file_id"%string :: requiredColumns) nineRows = Parsed c
       /\ cleanFile (fun v => v) nineRows = Some c.
Proof.
  split; [vm_compute; reflexivity|].
  destruct (parseFile (fun v => v) ("file_id"%string :: requiredColumns) nineRows)
    as [m|n|c] eqn:Hp; try (vm_compute in Hp; discriminate).
  exists c. split; [reflexivity|].
  apply (proj1 (proj1 (parseFile_outcome float (fun v => v)
                         ("file_id"%string :: requiredColumns) nineRows) c) Hp).
Defined.

(** ** Labels of degenerate fits *)

Module LabelFacts.

Lemma leb_small_false c x :
  (Prim2SF x = S754_nan \/ exists s, Prim2SF x = S754_zero s) ->
  SFltb (S754_zero false) (Prim2SF c) = true ->
  (c <=? x) = false.
Proof.
  intros Hx Hc. rewrite FloatAxioms.leb_spec.
  destruct Hx as [->|[s ->]]; destruct (Prim2SF c) as [sc|sc| |sc mc ec];
    try reflexivity; try discriminate; destruct sc; try reflexivity; discriminate.
Qed.

Lemma div_nan_r x y : Prim2SF y = S754_nan -> Prim2SF (x / y) = S754_nan.
Proof.
  intros Hy. rewrite FloatAxioms.div_spec, Hy. unfold SF64div, SFdiv.
  now destruct (Prim2SF x).
Qed.

Lemma div_nan_l x y : Prim2SF x = S754_nan -> Prim2SF (x / y) = S754_nan.
Proof.
  intros Hx. rewrite FloatAxioms.div_spec, Hx. reflexivity.
Qed.

Lemma add_nan_l x y : Prim2SF x = S754_nan -> Prim2SF (x + y) = S754_nan.
Proof.
  intros Hx. rewrite FloatAxioms.add_spec, Hx. reflexivity.
Qed.

Lemma abs_nan x : Prim2SF x = S754_nan -> Prim2SF (abs x) = S754_nan.
Proof. intros Hx. rewrite FloatAxioms.abs_spec, Hx. reflexivity. Qed.

Lemma is_zero_Prim2SF x : is_zero x = true -> exists s, Prim2SF x = S754_zero s.
Proof.
  unfold is_zero. rewrite FloatAxioms.eqb_spec.
  change (Prim2SF 0) with (S754_zero false).
  destruct (Prim2SF x) as [s|s| |s m e]; try discriminate; [eauto| |];
    destruct s; discriminate.
Qed.

Lemma zero_div x y :
  (exists s, Prim2SF x = S754_zero s) ->
  Prim2SF (abs x / y) = S754_nan \/ exists s, Prim2SF (abs x / y) = S754_zero s.
Proof.
  intros [s Hx]. rewrite FloatAxioms.div_spec, FloatAxioms.abs_spec, Hx.
  unfold SF64div, SFdiv. cbn [SFabs].
  destruct (Prim2SF y); eauto.
Qed.

Lemma degenerate_norm slope sd seconds :
  is_zero slope = true \/ is_nan slope = true \/ is_nan sd = true ->
  let norm := abs slope / (sd / orElse seconds 1 + EPS) in
  (1.5 <=? norm) = false /\ (0.4 <=? norm) = false.
Proof.
  intros H. set (d := sd / orElse seconds 1 + EPS). cbv zeta.
  assert (Hnorm : Prim2SF (abs slope / d) = S754_nan
                  \/ exists s, Prim2SF (abs slope / d) = S754_zero s).
  { destruct H as [Hz|[Hn|Hn]].
    - apply zero_div. now apply is_zero_Prim2SF.
    - left. apply div_nan_l, abs_nan. now apply FloatFacts.is_nan_Prim2SF.
    - left. apply div_nan_r. subst d.
      apply add_nan_l, div_nan_l. now apply FloatFacts.is_nan_Prim2SF. }
  split; apply leb_small_false; solve [exact Hnorm | reflexivity].
Qed.

(** A number that is neither NaN, zero nor positive is negative. *)
Lemma not_positive_negative x :
  is_nan x = false -> is_zero x = false -> (0 <? x) = false -> (x <? 0) = true.
Proof.
  intros Hn Hz Hp. apply notNaN_spec in Hn.
  unfold is_zero in Hz. rewrite FloatAxioms.eqb_spec in Hz.
  rewrite FloatAxioms.ltb_spec in *.
  change (Prim2SF 0) with (S754_zero false) in *.
  destruct (Prim2SF x) as [s|s| |s m e]; try congruence;
    destruct s; cbn in *; congruence.
Qed.

End LabelFacts.

(** X18: a window whose fitted slope is zero or NaN, or whose standard
    deviation is NaN (a value missing in the window), is labelled
    "constant", whatever the window length. *)
Theorem labelFromSlope_degenerate_is_constant (slope sd seconds : float) :
  is_zero slope = true \/ is_nan slope = true \/ is_nan sd = true ->
  labelFromSlope slope sd seconds = constant.
Proof.
  intros H. unfold labelFromSlope.
  destruct (LabelFacts.degenerate_norm slope sd seconds H) as [E1 E2].
  cbv zeta in E1, E2 |- *. rewrite E1, E2. reflexivity.
Qed.

(** [labelFromSlope_degenerate_is_constant] at a zero slope with a large
    deviation, and at a NaN deviation with a steep slope. *)
Lemma labelFromSlope_degenerate_is_constant_witness :
  labelFromSlope 0 100 1 = constant /\ labelFromSlope 50 nan 1 = constant.
Proof.
  split.
  - apply (labelFromSlope_degenerate_is_constant 0 100 1). left. reflexivity.
  - apply (labelFromSlope_degenerate_is_constant 50 nan 1). right; right. reflexivity.
Defined.

(** X20: a caption never contradicts the sign of the fitted slope:
    "sharp rise" and "increasing" are only given for a slope above zero,
    "sharp drop" and "decreasing" only for a slope below zero. *)
Theorem labelFromSlope_direction (slope sd seconds : float) :
  match labelFromSlope slope sd seconds with
  | sharp_rise | increasing => (0 <? slope) = true
  | sharp_drop | decreasing => (slope <? 0) = true
  | constant => True
  end.
Proof.
  destruct (is_zero slope) eqn:Hz.
  { unfold labelFromSlope.
    destruct (LabelFacts.degenerate_norm slope sd seconds (or_introl Hz)) as [E1 E2].
    cbv zeta in E1, E2 |- *. rewrite E1, E2. exact I. }
  destruct (is_nan slope) eqn:Hn.
  { unfold labelFromSlope.
    destruct (LabelFacts.degenerate_norm slope sd seconds (or_intror (or_introl Hn)))
      as [E1 E2].
    cbv zeta in E1, E2 |- *. rewrite E1, E2. exact I. }
  unfold labelFromSlope. cbv zeta.
  destruct (1.5 <=? _); [|destruct (0.4 <=? _); [|exact I]];
    (destruct (0 <? slope) eqn:Hp;
     [reflexivity | now apply LabelFacts.not_positive_negative]).
Qed.

(** ** The sort of [median] *)

(** The comparator [(x, y) => x - y] is read through its sign, so the
    sort is ascending only if a difference of finite numbers is negative
    exactly when its first operand is the smaller one.  Binary64 gives
    that: a difference is rounded from the exact difference of the two
    operands aligned on the smaller exponent, and the rounding keeps the
    sign and never reaches zero. *)

Module FloatSub.

#[local] Open Scope Z_scope.

Lemma digits2_bounds p :
  2 ^ (Zpos (digits2_pos p) - 1) <= Zpos p < 2 ^ Zpos (digits2_pos p).
Proof.
  induction p as [p IH|p IH|]; cbn [digits2_pos].
  - rewrite Pos2Z.inj_succ, (Pos2Z.inj_xI p).
    replace (Z.succ (Zpos (digits2_pos p)) - 1) with (Z.succ (Zpos (digits2_pos p) - 1)) by lia.
    rewrite !Z.pow_succ_r by lia.
    set (a := 2 ^ (Zpos (digits2_pos p) - 1)) in *.
    set (b := 2 ^ Zpos (digits2_pos p)) in *. clearbody a b. lia.
  - rewrite Pos2Z.inj_succ, (Pos2Z.inj_xO p).
    replace (Z.succ (Zpos (digits2_pos p)) - 1) with (Z.succ (Zpos (digits2_pos p) - 1)) by lia.
    rewrite !Z.pow_succ_r by lia.
    set (a := 2 ^ (Zpos (digits2_pos p) - 1)) in *.
    set (b := 2 ^ Zpos (digits2_pos p)) in *. clearbody a b. lia.
  - cbn. lia.
Qed.

Lemma shr_1_m mrs : 0 <= shr_m mrs -> shr_m (shr_1 mrs) = shr_m mrs / 2.
Proof.
  destruct mrs as [[|[p|p|]|p] r s]; cbn [shr_1 shr_m]; intros H; try lia.
  - reflexivity.
  - rewrite (Pos2Z.inj_xI p). apply Z.div_unique with 1; lia.
  - rewrite (Pos2Z.inj_xO p). apply Z.div_unique with 0; lia.
  - reflexivity.
Qed.

Lemma iter_shr_m q : forall mrs,
  0 <= shr_m mrs -> shr_m (SpecFloat.iter_pos shr_1 q mrs) = shr_m mrs / 2 ^ Zpos q.
Proof.
  induction q as [q IH|q IH|]; intros mrs H; cbn [SpecFloat.iter_pos].
  - assert (H1 : 0 <= shr_m (shr_1 mrs)) by (rewrite shr_1_m by lia; apply Z.div_pos; lia).
    assert (H2 : 0 <= shr_m (SpecFloat.iter_pos shr_1 q (shr_1 mrs))).
    { rewrite IH by lia. apply Z.div_pos; lia. }
    rewrite IH, IH, shr_1_m by assumption.
    rewrite !Z.div_div by lia. f_equal.
    rewrite (Pos2Z.inj_xI q).
    replace (2 * Zpos q + 1) with (1 + Zpos q + Zpos q) by lia.
    rewrite !Z.pow_add_r by lia. change (2 ^ 1) with 2. ring.
  - assert (H2 : 0 <= shr_m (SpecFloat.iter_pos shr_1 q mrs)).
    { rewrite IH by lia. apply Z.div_pos; lia. }
    rewrite IH, IH by assumption.
    rewrite !Z.div_div by lia. f_equal.
    rewrite (Pos2Z.inj_xO q). replace (2 * Zpos q) with (Zpos q + Zpos q) by lia.
    rewrite Z.pow_add_r by lia. reflexivity.
  - rewrite shr_1_m by assumption. reflexivity.
Qed.


Lemma fexp_emin e : emin <= fexp prec emax e.
Proof. unfold fexp. apply Z.le_max_r. Qed.

(** Rounding a positive mantissa whose exponent is at least [emin] keeps
    a positive mantissa: no bit is shifted out below the leading one. *)
Lemma shr_fexp_pos p e mrs e' :
  emin <= e ->
  shr_fexp prec emax (Zpos p) e loc_Exact = (mrs, e') ->
  0 < shr_m mrs /\ emin <= e'.
Proof.
  intros He. unfold shr_fexp, shr, shr_record_of_loc.
  cbn [Zdigits2].
  destruct (fexp prec emax (Zpos (digits2_pos p) + e) - e) as [|q|q] eqn:En;
    intros H; injection H as <- <-; cbn [shr_m]; try (split; [lia | assumption]).
  rewrite iter_shr_m by (cbn [shr_m]; lia). cbn [shr_m].
  split; [|rewrite <- En; pose proof (fexp_emin (Zpos (digits2_pos p) + e)); lia].
  assert (Hq : Zpos q = Zpos (digits2_pos p) - prec).
  { unfold fexp in En. lia. }
  apply Z.div_str_pos. split; [apply Z.pow_pos_nonneg; lia|].
  apply Z.le_trans with (2 ^ (Zpos (digits2_pos p) - 1)); [|apply digits2_bounds].
  apply Z.pow_le_mono_r; [lia|]. rewrite Hq. unfold prec. lia.
Qed.

Lemma round_nearest_even_pos m l : 0 < m -> 0 < round_nearest_even m l.
Proof.
  destruct l as [|[| |]]; cbn [round_nearest_even]; try destruct (Z.even m); lia.
Qed.

Lemma binary_round_aux_signed sx p e :
  emin <= e -> signed sx (binary_round_aux prec emax sx (Zpos p) e loc_Exact).
Proof.
  intros He. unfold binary_round_aux.
  destruct (shr_fexp prec emax (Zpos p) e loc_Exact) as [mrs' e'] eqn:E1.
  apply shr_fexp_pos in E1; [|assumption]. destruct E1 as [Hm' He'].
  pose proof (round_nearest_even_pos (shr_m mrs') (loc_of_shr_record mrs') Hm') as Hr.
  destruct (round_nearest_even (shr_m mrs') (loc_of_shr_record mrs')) as [|r|r]; try lia.
  destruct (shr_fexp prec emax (Zpos r) e' loc_Exact) as [mrs'' e''] eqn:E2.
  apply shr_fexp_pos in E2; [|assumption]. destruct E2 as [Hm'' _].
  destruct (shr_m mrs'') as [|m|m]; try lia.
  destruct (e'' <=? emax - prec); reflexivity.
Qed.

Lemma binary_round_signed sx p e :
  emin <= e -> signed sx (binary_round prec emax sx p e).
Proof.
  intros He. unfold binary_round, shl_align.
  destruct (fexp prec emax (Zpos (digits2_pos p) + e) - e) eqn:En;
    apply binary_round_aux_signed; try assumption.
  apply fexp_emin.
Qed.

Lemma iter_xO m d : Zpos (Pos.iter xO m d) = Zpos m * 2 ^ Zpos d.
Proof.
  induction d as [|d IH] using Pos.peano_ind.
  - cbn [Pos.iter]. rewrite (Pos2Z.inj_xO m). change (2 ^ 1) with 2. lia.
  - rewrite Pos.iter_succ, (Pos2Z.inj_xO (Pos.iter xO m d)), IH, Pos2Z.inj_succ,
      Z.pow_succ_r by lia. lia.
Qed.

Lemma shl_align_fst m e ez :
  ez <= e -> Zpos (fst (shl_align m e ez)) = Zpos m * 2 ^ (e - ez).
Proof.
  intros H. unfold shl_align.
  destruct (ez - e) as [|q|q] eqn:E; cbn [fst].
  - replace (e - ez) with 0 by lia. lia.
  - lia.
  - rewrite iter_xO. f_equal. f_equal. lia.
Qed.

(** What validity says of a finite number's mantissa and exponent. *)
Lemma bounded_canonical m e :
  bounded prec emax m e = true ->
  emin <= e /\ Zpos m < 2 ^ prec /\ (emin < e -> 2 ^ (prec - 1) <= Zpos m).
Proof.
  unfold bounded, canonical_mantissa, fexp. intros H.
  apply andb_prop in H. destruct H as [H _]. apply Z.eqb_eq in H.
  pose proof (digits2_bounds m) as [Hlo Hhi].
  split; [lia|]. split.
  - apply Z.lt_le_trans with (1 := Hhi). apply Z.pow_le_mono_r; lia.
  - intros Hlt. replace (prec - 1) with (Zpos (digits2_pos m) - 1) by lia. exact Hlo.
Qed.

Lemma scaled_mag_lt m1 e1 m2 e2 :
  bounded prec emax m1 e1 = true -> bounded prec emax m2 e2 = true ->
  e1 < e2 ->
  Zpos m1 * 2 ^ (e1 - emin) < Zpos m2 * 2 ^ (e2 - emin).
Proof.
  intros H1 H2 Hlt.
  apply bounded_canonical in H1, H2.
  destruct H1 as (He1 & Hm1 & _), H2 as (He2 & _ & Hm2).
  specialize (Hm2 ltac:(lia)).
  replace (e2 - emin) with ((e2 - e1 - 1) + 1 + (e1 - emin)) by lia.
  rewrite !Z.pow_add_r by lia. change (2 ^ 1) with 2.
  replace prec with ((prec - 1) + 1) in Hm1 by lia.
  rewrite Z.pow_add_r in Hm1 by (unfold prec; lia). change (2 ^ 1) with 2 in Hm1.
  assert (Ha : 0 < 2 ^ (e1 - emin)) by (apply Z.pow_pos_nonneg; lia).
  assert (Hb : 1 <= 2 ^ (e2 - e1 - 1)) by (apply Z.lt_pred_le, Z.pow_pos_nonneg; lia).
  set (a := 2 ^ (e1 - emin)) in *. set (b := 2 ^ (e2 - e1 - 1)) in *.
  set (c := 2 ^ (prec - 1)) in *. clearbody a b c.
  assert (Zpos m1 * a < 2 * c * a) by nia.
  assert (2 * c * a <= 2 * Zpos m2 * a) by nia.
  assert (2 * Zpos m2 * a <= Zpos m2 * (b * 2 * a)) by nia.
  lia.
Qed.


Lemma mag_pos m e : emin <= e -> 0 < Zpos m * 2 ^ (e - emin).
Proof. intros H. apply Z.mul_pos_pos; [lia | apply Z.pow_pos_nonneg; lia]. Qed.

Lemma mag_lt_same_exp m1 m2 e :
  emin <= e -> Zpos m1 < Zpos m2 ->
  Zpos m1 * 2 ^ (e - emin) < Zpos m2 * 2 ^ (e - emin).
Proof.
  intros H Hm. apply Z.mul_lt_mono_pos_r; [apply Z.pow_pos_nonneg; lia | exact Hm].
Qed.

(** The magnitudes of two valid finite numbers compare as their
    (exponent, mantissa) pairs do. *)
Lemma mag_compare m1 e1 m2 e2 :
  bounded prec emax m1 e1 = true -> bounded prec emax m2 e2 = true ->
  (Zpos m1 * 2 ^ (e1 - emin) ?= Zpos m2 * 2 ^ (e2 - emin))
  = match e1 ?= e2 with
    | Lt => Lt
    | Gt => Gt
    | Eq => Pos.compare_cont Eq m1 m2
    end.
Proof.
  intros V1 V2.
  pose proof (bounded_canonical _ _ V1) as [He1 _].
  destruct (e1 ?= e2) eqn:E.
  - apply Z.compare_eq in E. subst e2.
    change (Pos.compare_cont Eq m1 m2) with (Zpos m1 ?= Zpos m2).
    destruct (Zpos m1 ?= Zpos m2) eqn:Em.
    + apply Z.compare_eq in Em. rewrite Em. apply Z.compare_refl.
    + apply Z.compare_lt_iff in Em. apply Z.compare_lt_iff.
      now apply mag_lt_same_exp.
    + apply Z.compare_gt_iff in Em. apply Z.compare_gt_iff.
      now apply mag_lt_same_exp.
  - apply Z.compare_lt_iff in E. apply Z.compare_lt_iff.
    now apply scaled_mag_lt.
  - apply Z.compare_gt_iff in E. apply Z.compare_gt_iff.
    now apply scaled_mag_lt.
Qed.

(** On valid finite numbers the comparison of binary64 is that of the
    scaled values. *)
Lemma SFcompare_scaled X Y :
  valid_binary X = true -> valid_binary Y = true ->
  finiteSF X -> finiteSF Y ->
  SFcompare X Y = Some (scaled X ?= scaled Y).
Proof.
  destruct X as [sx|sx| |sx mx ex], Y as [sy|sy| |sy my ey];
    cbn [finiteSF valid_binary]; intros VX VY FX FY; try contradiction.
  - reflexivity.
  - apply bounded_canonical in VY. destruct VY as [He _].
    pose proof (mag_pos my ey He).
    cbn [SFcompare scaled]. f_equal. symmetry.
    destruct sy; cbn [cond_Zopp]; [apply Z.compare_gt_iff | apply Z.compare_lt_iff]; lia.
  - apply bounded_canonical in VX. destruct VX as [He _].
    pose proof (mag_pos mx ex He).
    cbn [SFcompare scaled]. f_equal. symmetry.
    destruct sx; cbn [cond_Zopp]; [apply Z.compare_lt_iff | apply Z.compare_gt_iff]; lia.
  - pose proof (bounded_canonical _ _ VX) as [Hex _].
    pose proof (bounded_canonical _ _ VY) as [Hey _].
    pose proof (mag_pos mx ex Hex) as Px. pose proof (mag_pos my ey Hey) as Py.
    pose proof (mag_compare _ _ _ _ VX VY) as Hc.
    cbn [SFcompare scaled]. f_equal.
    destruct sx, sy; cbn [cond_Zopp].
    + rewrite Z.compare_opp,
        (Z.compare_antisym (Zpos mx * 2 ^ (ex - emin)) (Zpos my * 2 ^ (ey - emin))), Hc.
      now destruct (ex ?= ey).
    + symmetry. apply Z.compare_lt_iff. lia.
    + symmetry. apply Z.compare_gt_iff. lia.
    + now rewrite Hc.
Qed.

Lemma signed_ltb_zero s r :
  signed s r -> SFltb r (S754_zero false) = s.
Proof. destruct r as [| | |s' m e]; cbn; try contradiction; intros ->; now destruct s. Qed.

(** The aligned difference that [SFsub] rounds is the difference of the
    scaled values, in units of the smaller exponent. *)
Lemma aligned_difference sx mx ex sy my ey :
  emin <= ex -> emin <= ey ->
  (cond_Zopp sx (Zpos (fst (shl_align mx ex (Z.min ex ey))))
   - cond_Zopp sy (Zpos (fst (shl_align my ey (Z.min ex ey)))))
  * 2 ^ (Z.min ex ey - emin)
  = scaled (S754_finite sx mx ex) - scaled (S754_finite sy my ey).
Proof.
  intros Hx Hy. cbn [scaled].
  rewrite !shl_align_fst by lia.
  assert (Ex : 2 ^ (ex - emin) = 2 ^ (ex - Z.min ex ey) * 2 ^ (Z.min ex ey - emin))
    by (rewrite <- Z.pow_add_r by lia; f_equal; lia).
  assert (Ey : 2 ^ (ey - emin) = 2 ^ (ey - Z.min ex ey) * 2 ^ (Z.min ex ey - emin))
    by (rewrite <- Z.pow_add_r by lia; f_equal; lia).
  rewrite Ex, Ey.
  destruct sx, sy; cbn [cond_Zopp]; ring.
Qed.

(** The sign of a difference of finite numbers is that of the
    comparison of its operands: no difference of two distinct finite
    numbers rounds to zero, and none is NaN. *)
Lemma SFsub_cases X Y :
  valid_binary X = true -> valid_binary Y = true ->
  finiteSF X -> finiteSF Y ->
  match scaled X ?= scaled Y with
  | Lt => signed true (SFsub prec emax X Y)
  | Gt => signed false (SFsub prec emax X Y)
  | Eq => exists s, SFsub prec emax X Y = S754_zero s
  end.
Proof.
  destruct X as [sx|sx| |sx mx ex], Y as [sy|sy| |sy my ey];
    cbn [finiteSF valid_binary]; intros VX VY FX FY; try contradiction.
  - cbn [scaled]. rewrite Z.compare_refl. destruct sx, sy; cbn; eauto.
  - apply bounded_canonical in VY. destruct VY as [He _].
    pose proof (mag_pos my ey He).
    cbn [SFsub scaled]. destruct sy; cbn [cond_Zopp negb].
    + replace (0 ?= - _) with Gt by (symmetry; apply Z.compare_gt_iff; lia).
      reflexivity.
    + replace (0 ?= _) with Lt by (symmetry; apply Z.compare_lt_iff; lia).
      reflexivity.
  - apply bounded_canonical in VX. destruct VX as [He _].
    pose proof (mag_pos mx ex He).
    cbn [SFsub scaled]. destruct sx; cbn [cond_Zopp].
    + replace (- _ ?= 0) with Lt by (symmetry; apply Z.compare_lt_iff; lia).
      reflexivity.
    + replace (_ ?= 0) with Gt by (symmetry; apply Z.compare_gt_iff; lia).
      reflexivity.
  - pose proof (bounded_canonical _ _ VX) as [Hex _].
    pose proof (bounded_canonical _ _ VY) as [Hey _].
    pose proof (aligned_difference sx mx ex sy my ey Hex Hey) as Hd.
    assert (Hp : 0 < 2 ^ (Z.min ex ey - emin)) by (apply Z.pow_pos_nonneg; lia).
    cbn [SFsub]. cbv zeta. unfold binary_normalize.
    destruct (cond_Zopp sx (Zpos (fst (shl_align mx ex (Z.min ex ey))))
              - cond_Zopp sy (Zpos (fst (shl_align my ey (Z.min ex ey))))) as [|d|d].
    + replace (scaled _ ?= scaled _) with Eq by (symmetry; apply Z.compare_eq_iff; lia).
      eauto.
    + replace (scaled _ ?= scaled _) with Gt by (symmetry; apply Z.compare_gt_iff; nia).
      apply binary_round_signed; lia.
    + replace (scaled _ ?= scaled _) with Lt by (symmetry; apply Z.compare_lt_iff; nia).
      apply binary_round_signed; lia.
Qed.

(** A difference of finite numbers compares with zero as its first
    operand compares with its second. *)
Lemma SFsub_compare X Y :
  valid_binary X = true -> valid_binary Y = true ->
  finiteSF X -> finiteSF Y ->
  SFcompare (SFsub prec emax X Y) (S754_zero false) = SFcompare X Y
  /\ SFcompare (S754_zero false) (SFsub prec emax X Y) = SFcompare Y X.
Proof.
  intros VX VY FX FY.
  pose proof (SFsub_cases X Y VX VY FX FY) as H.
  rewrite (SFcompare_scaled X Y), (SFcompare_scaled Y X) by assumption.
  rewrite (Z.compare_antisym (scaled X) (scaled Y)).
  destruct (scaled X ?= scaled Y).
  - destruct H as [s ->]. split; reflexivity.
  - destruct (SFsub prec emax X Y) as [| | |]; cbn in H; try contradiction;
      subst; split; reflexivity.
  - destruct (SFsub prec emax X Y) as [| | |]; cbn in H; try contradiction;
      subst; split; reflexivity.
Qed.

End FloatSub.

Lemma isFiniteNum_finiteSF x : isFiniteNum x = true -> finiteSF (Prim2SF x).
Proof.
  unfold isFiniteNum, is_finite. intros H.
  apply andb_prop in H. destruct H as [H _].
  apply negb_true_iff, orb_false_iff in H. destruct H as [Hn Hi].
  unfold Prim2SF. rewrite Hn, Hi.
  destruct (is_zero x); [exact I|].
  destruct (Z.frexp x) as [r e].
  destruct (shr_fexp prec emax _ _ _) as [mrs e'].
  destruct (shr_m mrs); exact I.
Qed.

(** The comparator [(x, y) => x - y] on finite numbers: its result is
    negative, zero or positive exactly when [x] is below, equal to or
    above [y]. *)
Lemma sub_sign x y :
  isFiniteNum x = true -> isFiniteNum y = true ->
  (x - y <? 0) = (x <? y)
  /\ (0 <? x - y) = (y <? x)
  /\ (x - y =? 0) = (x =? y)
  /\ is_nan (x - y) = false.
Proof.
  intros Hx Hy.
  destruct (FloatSub.SFsub_compare (Prim2SF x) (Prim2SF y)) as [H1 H2];
    auto using FloatAxioms.Prim2SF_valid, isFiniteNum_finiteSF.
  rewrite !FloatAxioms.ltb_spec, !FloatAxioms.eqb_spec, FloatAxioms.sub_spec.
  change (Prim2SF 0) with (S754_zero false).
  unfold SF64sub, SFltb, SFeqb. rewrite H1, H2.
  repeat split.
  apply notNaN_spec. rewrite FloatAxioms.sub_spec. unfold SF64sub.
  pose proof (FloatSub.SFsub_cases (Prim2SF x) (Prim2SF y)
                (FloatAxioms.Prim2SF_valid x) (FloatAxioms.Prim2SF_valid y)
                (isFiniteNum_finiteSF x Hx) (isFiniteNum_finiteSF y Hy)) as Hc.
  destruct (scaled (Prim2SF x) ?= scaled (Prim2SF y))%Z.
  - destruct Hc as [s ->]. discriminate.
  - intros E. rewrite E in Hc. exact Hc.
  - intros E. rewrite E in Hc. exact Hc.
Qed.

Lemma sub_negative x y :
  isFiniteNum x = true -> isFiniteNum y = true ->
  (x - y <? 0) = (x <? y).
Proof. intros Hx Hy. exact (proj1 (sub_sign x y Hx Hy)). Qed.

Lemma insertNum_Permutation x a : Permutation (insertNum x a) (x :: a).
Proof.
  induction a as [|y a IH]; cbn [insertNum]; [reflexivity|].
  destruct (y - x <? 0); [|reflexivity].
  apply perm_trans with (y :: x :: a); [apply perm_skip, IH | apply perm_swap].
Qed.

Lemma sortNum_Permutation a : Permutation (sortNum a) a.
Proof.
  induction a as [|x a IH]; cbn [sortNum fold_right]; [constructor|].
  apply perm_trans with (x :: sortNum a);
    [apply insertNum_Permutation | apply perm_skip, IH].
Qed.

Lemma insertNum_HdRel x y a :
  lef y x -> HdRel lef y a -> HdRel lef y (insertNum x a).
Proof.
  intros Hyx H. destruct a as [|z a]; cbn [insertNum]; [now constructor|].
  destruct (z - x <? 0); constructor; [now inversion H | assumption].
Qed.

Lemma insertNum_sorted x a :
  isFiniteNum x = true -> Forall (fun v => isFiniteNum v = true) a ->
  Sorted lef a -> Sorted lef (insertNum x a).
Proof.
  intros Hx Ha Hs. induction a as [|y a IH]; cbn [insertNum].
  - repeat constructor.
  - inversion Ha as [|? ? Hy Ha']; subst. inversion Hs as [|? ? Hs' Hhd]; subst.
    rewrite (sub_negative y x Hy Hx).
    destruct (y <? x) eqn:E.
    + constructor; [now apply IH|].
      apply insertNum_HdRel; [now apply ltb_lef | assumption].
    + constructor; [assumption|]. constructor.
      apply not_ltb_lef; auto using isFiniteNum_notNaN.
Qed.

Lemma sortNum_finite a :
  Forall (fun v => isFiniteNum v = true) a ->
  Forall (fun v => isFiniteNum v = true) (sortNum a).
Proof.
  rewrite !Forall_forall. intros H v Hv. apply H. now apply sortNum_In.
Qed.

Lemma sortNum_sorted a :
  Forall (fun v => isFiniteNum v = true) a -> StronglySorted lef (sortNum a).
Proof.
  intros Ha. apply Sorted_lef_strong.
  induction a as [|x a IH]; cbn [sortNum fold_right]; [constructor|].
  inversion Ha as [|? ? Hx Ha']; subst.
  apply insertNum_sorted; [assumption | now apply sortNum_finite | now apply IH].
Qed.

Lemma filter_finite arr : Forall (fun v => isFiniteNum v = true) (filter isFiniteNum arr).
Proof. apply Forall_forall. intros v Hv. now apply filter_In in Hv. Qed.

(** X19: on finite numbers the comparator [(x, y) => x - y] is
    negative, positive or zero exactly when [x] is below, above or equal
    to [y], so the sort of [median] returns its input in ascending
    order: the same entries, each as often, none above a later one. *)
Theorem sortNum_ascending (a : list float) :
  Forall (fun v => isFiniteNum v = true) a ->
  Permutation (sortNum a) a
  /\ StronglySorted lef (sortNum a)
  /\ forall x y, In x a -> In y a ->
       (x - y <? 0) = (x <? y)
       /\ (0 <? x - y) = (y <? x)
       /\ (x - y =? 0) = (x =? y).
Proof.
  intros Ha. split; [apply sortNum_Permutation|].
  split; [now apply sortNum_sorted|].
  intros x y Hx Hy. rewrite Forall_forall in Ha.
  destruct (sub_sign x y (Ha x Hx) (Ha y Hy)) as (H1 & H2 & H3 & _).
  split; [exact H1 | split; [exact H2 | exact H3]].
Qed.

(** [sortNum_ascending] on six finite samples. *)
Lemma sortNum_ascending_witness :
  Permutation (sortNum (filter isFiniteNum sixSamples)) (filter isFiniteNum sixSamples)
  /\ StronglySorted lef (sortNum (filter isFiniteNum sixSamples))
  /\ forall x y, In x (filter isFiniteNum sixSamples) ->
       In y (filter isFiniteNum sixSamples) ->
       (x - y <? 0) = (x <? y)
       /\ (0 <? x - y) = (y <? x)
       /\ (x - y =? 0) = (x =? y).
Proof.
  apply (sortNum_ascending (filter isFiniteNum sixSamples)).
  apply filter_finite.
Defined.

Lemma filter_length_Permutation (f : float -> bool) l l' :
  Permutation l l' -> length (filter f l) = length (filter f l').
Proof.
  induction 1 as [|x l l' _ IH|x y l|l l' l'' _ IH1 _ IH2]; cbn [filter].
  - reflexivity.
  - destruct (f x); cbn [length]; now rewrite IH.
  - destruct (f x), (f y); reflexivity.
  - now rewrite IH1.
Qed.

Lemma filter_all (f : float -> bool) l :
  Forall (fun v => f v = true) l -> filter f l = l.
Proof.
  induction 1 as [|x l Hx _ IH]; cbn [filter]; [reflexivity|].
  now rewrite Hx, IH.
Qed.

Lemma sorted_prefix s :
  StronglySorted lef s -> Forall notNaN s ->
  forall k, (k < length s)%nat ->
    Forall (fun v => (v <=? get s k) = true) (firstn (S k) s).
Proof.
  induction 1 as [|x s Hs IH Hall]; intros Hn k Hk; [cbn in Hk; lia|].
  inversion Hn as [|? ? Hx Hn']; subst.
  destruct k as [|k].
  - cbn. constructor; [now apply lef_refl | constructor].
  - rewrite get_cons_S. cbn [firstn]. cbn [length] in Hk. constructor.
    + rewrite Forall_forall in Hall. apply Hall. apply get_In. lia.
    + apply IH; [assumption | lia].
Qed.

Lemma sorted_suffix s :
  StronglySorted lef s -> Forall notNaN s ->
  forall k, (k < length s)%nat ->
    Forall (fun v => (get s k <=? v) = true) (skipn k s).
Proof.
  induction 1 as [|x s Hs IH Hall]; intros Hn k Hk; [cbn in Hk; lia|].
  inversion Hn as [|? ? Hx Hn']; subst.
  destruct k as [|k].
  - cbn [skipn]. constructor; [now apply lef_refl | exact Hall].
  - rewrite get_cons_S. cbn [skipn]. cbn [length] in Hk.
    apply IH; [assumption | lia].
Qed.

Lemma sorted_atMost s k :
  StronglySorted lef s -> Forall notNaN s -> (k < length s)%nat ->
  (S k <= atMost (get s k) s)%nat.
Proof.
  intros Hs Hn Hk. unfold atMost.
  assert (E : filter (fun v => v <=? get s k) s
              = filter (fun v => v <=? get s k) (firstn (S k) s)
                ++ filter (fun v => v <=? get s k) (skipn (S k) s))
    by (now rewrite <- filter_app, firstn_skipn).
  rewrite E, length_app, (filter_all (fun v => v <=? get s k) _ (sorted_prefix s Hs Hn k Hk)).
  rewrite length_firstn. lia.
Qed.

Lemma sorted_atLeast s k :
  StronglySorted lef s -> Forall notNaN s -> (k < length s)%nat ->
  (length s - k <= atLeast (get s k) s)%nat.
Proof.
  intros Hs Hn Hk. unfold atLeast.
  assert (E : filter (fun v => get s k <=? v) s
              = filter (fun v => get s k <=? v) (firstn k s)
                ++ filter (fun v => get s k <=? v) (skipn k s))
    by (now rewrite <- filter_app, firstn_skipn).
  rewrite E, length_app, (filter_all (fun v => get s k <=? v) _ (sorted_suffix s Hs Hn k Hk)).
  rewrite length_skipn. lia.
Qed.

Lemma finite_notNaN l :
  Forall (fun v => isFiniteNum v = true) l -> Forall notNaN l.
Proof. apply Forall_impl. intros v. apply isFiniteNum_notNaN. Qed.

(** X1: [median] is a median of the finite entries of its argument.
    With none it is NaN.  With an odd number of them it returns an entry
    that more than half of them are at most, and more than half at
    least; with an even number it returns [(a + b) / 2] for two entries
    [a <= b] such that at least half of the entries are at most [a] and
    at least half are at least [b]. *)
Theorem median_splits_finite_entries (arr : list float) :
  let fin := filter isFiniteNum arr in
  (fin = [] -> median arr = nan)
  /\ (Nat.odd (length fin) = true ->
     In (median arr) fin
     /\ (length fin < 2 * atMost (median arr) fin)%nat
     /\ (length fin < 2 * atLeast (median arr) fin)%nat)
  /\ (fin <> [] -> Nat.odd (length fin) = false ->
      exists a b, In a fin /\ In b fin /\ lef a b
        /\ median arr = (a + b) / 2
        /\ (length fin <= 2 * atMost a fin)%nat
        /\ (length fin <= 2 * atLeast b fin)%nat).
Proof.
  intros fin.
  pose proof (filter_finite arr) as Hfin. fold fin in Hfin.
  pose proof (sortNum_sorted fin Hfin) as Hs.
  pose proof (finite_notNaN _ (sortNum_finite fin Hfin)) as Hn.
  pose proof (sortNum_Permutation fin) as Hp.
  pose proof (sortNum_length fin) as Hlen.
  assert (Hmost : forall m, atMost m fin = atMost m (sortNum fin)).
  { intros m. symmetry. apply filter_length_Permutation, Hp. }
  assert (Hleast : forall m, atLeast m fin = atLeast m (sortNum fin)).
  { intros m. symmetry. apply filter_length_Permutation, Hp. }
  unfold median. fold fin. rewrite Hlen.
  split; [intros E; rewrite E; reflexivity|].
  split.
  - intros Hodd. rewrite Hodd.
    assert (Hk : (length fin = 2 * (length fin / 2) + 1)%nat).
    { rewrite (Nat.div_mod_eq (length fin) 2) at 1.
      rewrite <- Nat.bit0_mod, Nat.bit0_odd, Hodd. reflexivity. }
    assert (Hpos : (length fin / 2 < length (sortNum fin))%nat) by lia.
    destruct (length fin =? 0)%nat eqn:E0; [apply Nat.eqb_eq in E0; lia|].
    split; [apply sortNum_In, get_In, Hpos|].
    rewrite Hmost, Hleast.
    pose proof (sorted_atMost _ _ Hs Hn Hpos).
    pose proof (sorted_atLeast _ _ Hs Hn Hpos). lia.
  - intros Hne Hodd. rewrite Hodd.
    assert (Hk : (length fin = 2 * (length fin / 2))%nat).
    { rewrite (Nat.div_mod_eq (length fin) 2) at 1.
      rewrite <- Nat.bit0_mod, Nat.bit0_odd, Hodd. cbn. lia. }
    assert (H0 : (0 < length fin)%nat) by (destruct fin; [congruence | cbn; lia]).
    assert (Hb : (length fin / 2 < length (sortNum fin))%nat) by lia.
    assert (Ha : (length fin / 2 - 1 < length (sortNum fin))%nat) by lia.
    destruct (length fin =? 0)%nat eqn:E0; [apply Nat.eqb_eq in E0; lia|].
    exists (get (sortNum fin) (length fin / 2 - 1)), (get (sortNum fin) (length fin / 2)).
    split; [apply sortNum_In, get_In, Ha|].
    split; [apply sortNum_In, get_In, Hb|].
    split.
    { unfold get.
      destruct (nth_error (sortNum fin) (length fin / 2 - 1)) as [a|] eqn:Ea;
        [|apply nth_error_None in Ea; lia].
      destruct (nth_error (sortNum fin) (length fin / 2)) as [b|] eqn:Eb;
        [|apply nth_error_None in Eb; lia].
      apply (StronglySorted_nth lef _ Hs (length fin / 2 - 1) (length fin / 2) a b);
        [lia | assumption | assumption]. }
    split; [reflexivity|].
    rewrite Hmost, Hleast.
    pose proof (sorted_atMost _ _ Hs Hn Ha).
    pose proof (sorted_atLeast _ _ Hs Hn Hb). lia.
Qed.

(** [median_splits_finite_entries] on no, three and six finite samples. *)
Lemma median_splits_finite_entries_witness :
  median [nan; infinity] = nan
  /\ (In (median threeSamples) (filter isFiniteNum threeSamples)
   /\ (length (filter isFiniteNum threeSamples)
       < 2 * atMost (median threeSamples) (filter isFiniteNum threeSamples))%nat
   /\ (length (filter isFiniteNum threeSamples)
       < 2 * atLeast (median threeSamples) (filter isFiniteNum threeSamples))%nat)
  /\ exists a b,
       In a (filter isFiniteNum sixSamples) /\ In b (filter isFiniteNum sixSamples)
       /\ lef a b
       /\ median sixSamples = (a + b) / 2
       /\ (length (filter isFiniteNum sixSamples)
           <= 2 * atMost a (filter isFiniteNum sixSamples))%nat
       /\ (length (filter isFiniteNum sixSamples)
           <= 2 * atLeast b (filter isFiniteNum sixSamples))%nat.
Proof.
  split; [|split].
  - apply (proj1 (median_splits_finite_entries [nan; infinity])). reflexivity.
  - apply (proj1 (proj2 (median_splits_finite_entries threeSamples))). reflexivity.
  - apply (proj2 (proj2 (median_splits_finite_entries sixSamples)));
      [discriminate | reflexivity].
Defined.

(** ** The range of a series *)








Section RangeFacts.

Variable Math_pow : float -> float -> float.
Variable Math_log2 : float -> float.
Variable fftSpectrum : nat -> list float -> list float.


End RangeFacts.


(** ** Windows with a missing value *)

Module NaNFacts.

Lemma add_nan_r x y : Prim2SF y = S754_nan -> Prim2SF (x + y) = S754_nan.
Proof.
  intros Hy. rewrite FloatAxioms.add_spec, Hy. unfold SF64add, SFadd.
  now destruct (Prim2SF x).
Qed.

Lemma mul_nan_r x y : Prim2SF y = S754_nan -> Prim2SF (x * y) = S754_nan.
Proof.
  intros Hy. rewrite FloatAxioms.mul_spec, Hy. unfold SF64mul, SFmul.
  now destruct (Prim2SF x).
Qed.

Lemma sub_nan_r x y : Prim2SF y = S754_nan -> Prim2SF (x - y) = S754_nan.
Proof.
  intros Hy. rewrite FloatAxioms.sub_spec, Hy. unfold SF64sub, SFsub.
  now destruct (Prim2SF x).
Qed.

(** A sum that meets NaN stays NaN. *)
Lemma fold_add_nan l : forall acc,
  Prim2SF acc = S754_nan \/ Exists (fun v => Prim2SF v = S754_nan) l ->
  Prim2SF (fold_left add l acc) = S754_nan.
Proof.
  induction l as [|x l IH]; intros acc H; cbn [fold_left].
  - destruct H as [H|H]; [exact H | inversion H].
  - apply IH. destruct H as [H|H].
    + left. now apply LabelFacts.add_nan_l.
    + inversion H as [? ? Hx|? ? Hl]; subst; [left; now apply add_nan_r | now right].
Qed.

End NaNFacts.

(** The slope fitted to values whose sum is NaN is NaN. *)
Lemma linearFitSlope_nan t y :
  (2 <= length t)%nat -> is_nan (sum y) = true ->
  is_nan (Fit.m (linearFitSlope t y)) = true.
Proof.
  intros Hn Hy. unfold linearFitSlope.
  destruct (length t <? 2)%nat eqn:E; [apply Nat.ltb_lt in E; lia|].
  cbn [Fit.m]. apply FloatFacts.is_nan_Prim2SF.
  apply LabelFacts.div_nan_l, NaNFacts.sub_nan_r, NaNFacts.mul_nan_r.
  now apply FloatFacts.is_nan_Prim2SF.
Qed.

Section MissingValues.

Variable Math_pow : float -> float -> float.

(** The body of the loop on a window that holds a missing value. *)
Lemma captionOf_missing time y winSec k idx i :
  (2 <= length idx)%nat -> In i idx -> is_nan (get y i) = true ->
  captionOf Math_pow time y winSec k idx = Some (Caption.mk k constant).
Proof.
  intros Hn Hi Hnan. unfold captionOf.
  destruct (length idx <? 2)%nat eqn:E; [apply Nat.ltb_lt in E; lia|].
  cbv zeta. f_equal. f_equal.
  assert (Hm : is_nan (Fit.m (linearFitSlope (map (fun i => get time i) idx)
                                (map (fun i => get y i) idx))) = true).
  { apply linearFitSlope_nan; [now rewrite length_map|].
    apply FloatFacts.is_nan_Prim2SF. unfold sum. apply NaNFacts.fold_add_nan.
    right. apply Exists_exists. exists (get y i).
    split; [apply in_map_iff; eauto | now apply FloatFacts.is_nan_Prim2SF]. }
  unfold labelFromSlope.
  match goal with
  | |- context [abs ?m / (?sd / orElse ?w 1 + EPS)] =>
      destruct (LabelFacts.degenerate_norm m sd w (or_intror (or_introl Hm)))
        as [E1 E2]
  end.
  cbv zeta in E1, E2 |- *. rewrite E1, E2. reflexivity.
Qed.

(** X22: a window of at least 2 samples one of whose values is missing
    (NaN, or past the end of a value series shorter than the time
    sequence) is captioned "constant": the missing value turns the
    fitted slope into NaN, and the window is neither skipped nor
    reported. *)
Theorem slidingWindowCaptions_missing_value (fuel : nat)
    (time y : list float) (winSec hopSec : float) (ws : list Window.t) :
  (2 <= length time)%nat ->
  scannedWindows fuel time winSec hopSec = Some ws ->
  exists caps,
    slidingWindowCaptions Math_pow fuel (Some time) y winSec hopSec = Some caps
    /\ forall w i,
         In w ws -> (2 <= length (Window.idx w))%nat ->
         In i (Window.idx w) -> is_nan (get y i) = true ->
         In (Caption.mk (Window.k w) constant) caps.
Proof.
  intros Hlen Hscan. unfold slidingWindowCaptions.
  destruct (length time <? 2)%nat eqn:E; [apply Nat.ltb_lt in E; lia|].
  cbv zeta. rewrite captionLoop_scanWindows.
  unfold scannedWindows in Hscan. rewrite Hscan.
  eexists. split; [reflexivity|].
  intros w i Hw Hn Hi Hnan. cbn [app]. unfold captionsOf.
  apply in_flat_map. exists w. split; [exact Hw|].
  rewrite (captionOf_missing time y winSec (Window.k w) (Window.idx w) i Hn Hi Hnan).
  now left.
Qed.

End MissingValues.

(** [slidingWindowCaptions_missing_value] on the half-second grid with
    three values for five time stamps: the windows at positions 2 and 3
    reach the missing values. *)
Lemma slidingWindowCaptions_missing_value_witness :
  (2 <= length halfSecondGrid)%nat
  /\ scannedWindows 10 halfSecondGrid 1 0.5 = Some halfSecondGridWindows
  /\ exists caps,
       slidingWindowCaptions squarePow 10 (Some halfSecondGrid) threeValues 1 0.5
       = Some caps
       /\ forall w i,
            In w halfSecondGridWindows -> (2 <= length (Window.idx w))%nat ->
            In i (Window.idx w) -> is_nan (get threeValues i) = true ->
            In (Caption.mk (Window.k w) constant) caps.
Proof.
  assert (H2 : (2 <= length halfSecondGrid)%nat) by (vm_compute; lia).
  assert (Hs : scannedWindows 10 halfSecondGrid 1 0.5 = Some halfSecondGridWindows)
    by (vm_compute; reflexivity).
  split; [exact H2|]. split; [exact Hs|].
  exact (slidingWindowCaptions_missing_value squarePow 10 halfSecondGrid threeValues
           1 0.5 halfSecondGridWindows H2 Hs).
Defined.

(** ** The sign of the dispersion features *)

Module SignFacts.









End SignFacts.











Section DispersionFacts.

Variable Math_pow : float -> float -> float.
Variable Math_log2 : float -> float.
Variable fftSpectrum : nat -> list float -> list float.


End DispersionFacts.


(** ** The sign of the spectral powers *)





Section PowerFacts.

Variable Math_pow : float -> float -> float.
Variable Math_log2 : float -> float.
Variable fftSpectrum : nat -> list float -> list float.




End PowerFacts.

